(** * Line transposition in the prompt textarea

    A shallow embedding of [moveSelectedLine], the operation of the
    line-movement hook [useHandlePromptLine], together with the
    properties its specification states: round trips of moves, boundary
    behaviour, growth under copies, selection remapping and the scroll
    policy.

    A JavaScript string is modelled as the list of its characters, an array
    as a list, an array index and every other integer-valued number as an
    integer of [Z], and [undefined] read from an array as [None]. *)

From Stdlib Require Import ZArith QArith Qcanon Ascii String Permutation.
From stdpp Require Import base tactics option list numbers strings.

Local Open Scope Z_scope.

(** ** JavaScript primitives used by the hook *)

Module JS.

Abbreviation jsstring := (list ascii).

(** The line separator, ["\n"]. *)
Definition nl : ascii := "010"%char.

(** A literal, for readable examples. *)
Definition str (s : string) : jsstring := list_ascii_of_string s.

(** [s.split(sep)] for a one-character separator: the pieces between the
    separators, in order; the first component is the piece being read. *)
Fixpoint splitFrom (sep : ascii) (s : jsstring) : jsstring * list jsstring :=
  match s with
  | [] => ([], [])
  | c :: r =>
      let '(l, ls) := splitFrom sep r in
      if Ascii.eqb c sep then ([], l :: ls) else (c :: l, ls)
  end.

Definition split (sep : ascii) (s : jsstring) : list jsstring :=
  let '(l, ls) := splitFrom sep s in l :: ls.

(** [a.join(sep)]. *)
Fixpoint join (sep : ascii) (a : list jsstring) : jsstring :=
  match a with
  | [] => []
  | [l] => l
  | l :: a' => l ++ sep :: join sep a'
  end.

(** Clamping of an argument of [substring] to the string. *)
Definition clampIndex (len : nat) (i : Z) : nat :=
  Z.to_nat (Z.min (Z.max i 0) (Z.of_nat len)).

(** [s.substring(a, b)]: both ends are clamped, and swapped when out of
    order. *)
Definition substring (s : jsstring) (a b : Z) : jsstring :=
  let a' := clampIndex (length s) a in
  let b' := clampIndex (length s) b in
  take (Nat.max a' b' - Nat.min a' b') (drop (Nat.min a' b') s).

(** [a[i]]: [None] stands for [undefined]. *)
Definition index {A} (a : list A) (i : Z) : option A :=
  if i <? 0 then None else a !! Z.to_nat i.

(** A relative index of [slice] and [splice]: counted from the end when
    negative, and clamped to the array. *)
Definition relIndex (len : nat) (i : Z) : nat :=
  if i <? 0 then Z.to_nat (Z.max (Z.of_nat len + i) 0)
  else Z.to_nat (Z.min i (Z.of_nat len)).

(** [a.slice(from, to)]. *)
Definition slice {A} (a : list A) (from to : Z) : list A :=
  let k := relIndex (length a) from in
  let f := relIndex (length a) to in
  take (f - k) (drop k a).

(** [a.splice(start, deleteCount, ...items)]: the array after the call,
    and the removed elements, which the call returns. *)
Definition splice {A} (a : list A) (start deleteCount : Z) (items : list A)
  : list A * list A :=
  let k := relIndex (length a) start in
  let dc := Z.to_nat (Z.min (Z.max deleteCount 0) (Z.of_nat (length a - k))) in
  (take k a ++ items ++ drop (k + dc) a, take dc (drop k a)).

(** [a.reduce(f, init)] with the callback's index argument. *)
Definition reduce {A B} (f : B -> A -> nat -> B) (init : B) (a : list A) : B :=
  fst (fold_left (fun '(acc, i) x => (f acc x i, S i)) a (init, 0%nat)).

End JS.

Import JS.

(** ** The hook *)

Inductive Direction := up | down.

Definition isUp (d : Direction) : bool :=
  match d with up => true | down => false end.

Definition isDown (d : Direction) : bool :=
  match d with up => false | down => true end.

(** What the deferred frame callback of one call computes before it touches
    the textarea: the arguments of [setSelectionRange], the line the scroll
    policy targets and the number of lines it divides the height by. *)
Record Frame := mkFrame {
  finalSelectionStart : Z;
  finalSelectionEnd : Z;
  newStartLine : Z;
  newEndLine : Z;
  lineCount : nat
}.

(** The effects of one call of [moveSelectedLine]. *)
Inductive Outcome :=
| Returned
    (** the boundary check returned: [onChange] is not called and no
        callback is scheduled *)
| Changed (newValue : jsstring) (frame : option Frame)
    (** [onChange(newValue)] was called; the frame callback then reached
        [setSelectionRange] with [frame], or threw a [TypeError] on an
        [undefined] line before it ([None]) *).

(** The table of line starts, built by [reduce] with [push]. The reads
    [acc[i - 1]] and [lines[i - 1]] are in range for [i > 0]. *)
Definition lineOffsetsOf (lines : list jsstring) : list Z :=
  reduce
    (fun (acc : list Z) (_ : jsstring) (i : nat) =>
       acc ++ [ if (i =? 0)%nat then 0
                else default 0 (acc !! (i - 1)%nat)
                     + Z.of_nat (length (default [] (lines !! (i - 1)%nat))) + 1 ])
    [] lines.

(** [value.substring(0, pos).split("\n").length - 1]. *)
Definition lineNumberOf (value : jsstring) (pos : Z) : Z :=
  Z.of_nat (length (split nl (substring value 0 pos))) - 1.

(** The destructuring exchange [[a[i], a[j]] = [a[j], a[i]]]. Both reads are
    in range wherever the hook performs it (lemma [swap_in_range]); an
    [undefined] read would be stored as it is, which a list of strings
    cannot hold, so that case leaves the array alone. *)
Definition swap {A} (a : list A) (i j : Z) : list A :=
  match index a i, index a j with
  | Some x, Some y => <[Z.to_nat j := x]> (<[Z.to_nat i := y]> a)
  | _, _ => a
  end.

(** The boundary check of a move. *)
Definition atBoundary (direction : Direction) (shouldCopy : bool)
    (startLineNumber endLineNumber : Z) (lines : list jsstring) : bool :=
  negb shouldCopy
  && ((isUp direction && (startLineNumber =? 0))
      || (isDown direction && (endLineNumber =? Z.of_nat (length lines) - 1))).

(** The lines after the operation. *)
Definition newLinesOf (lines : list jsstring) (direction : Direction)
    (shouldCopy : bool) (startLineNumber endLineNumber : Z) : list jsstring :=
  let isMultiLineSelection := negb (startLineNumber =? endLineNumber) in
  let swapIndex :=
    if isUp direction then startLineNumber - 1 else endLineNumber + 1 in
  if shouldCopy then
    if isMultiLineSelection then
      let selectedLines := slice lines startLineNumber (endLineNumber + 1) in
      let insertPosition :=
        if isUp direction then startLineNumber else endLineNumber + 1 in
      fst (splice lines insertPosition 0 selectedLines)
    else
      let insertPosition :=
        if isUp direction then startLineNumber else startLineNumber + 1 in
      fst (splice lines insertPosition 0
             [default [] (index lines startLineNumber)])
  else
    if isMultiLineSelection then
      let '(rest, selectedLines) :=
        splice lines startLineNumber (endLineNumber - startLineNumber + 1) [] in
      fst (splice rest
             (if isUp direction then swapIndex
              else swapIndex - Z.of_nat (length selectedLines) + 1)
             0 selectedLines)
    else swap lines startLineNumber swapIndex.

(** The line the remapped selection starts on. *)
Definition newStartLineOf (direction : Direction) (shouldCopy : bool)
    (startLineNumber : Z) : Z :=
  if shouldCopy then
    if isUp direction then startLineNumber else startLineNumber + 1
  else
    if isUp direction then startLineNumber - 1 else startLineNumber + 1.

(** The line the remapped selection ends on. *)
Definition newEndLineOf (direction : Direction) (shouldCopy : bool)
    (endLineNumber : Z) : Z :=
  if shouldCopy then
    if isUp direction then endLineNumber else endLineNumber + 1
  else
    if isUp direction then endLineNumber - 1 else endLineNumber + 1.

(** The part of the frame callback that computes the selection. The two
    tables have one entry per line, so a line that is [undefined] in one is
    [undefined] in the other, and the read of its [length] throws. *)
Definition frameOf (newLines : list jsstring) (direction : Direction)
    (shouldCopy : bool) (startLineNumber endLineNumber : Z)
    (selectionStartOffset selectionEndOffset : Z) : option Frame :=
  let isMultiLineSelection := negb (startLineNumber =? endLineNumber) in
  let newLineOffsets := lineOffsetsOf newLines in
  let newStartLine := newStartLineOf direction shouldCopy startLineNumber in
  let newEndLine := newEndLineOf direction shouldCopy endLineNumber in
  startOffset ← index newLineOffsets newStartLine;
  endOffset ← index newLineOffsets newEndLine;
  startContent ← index newLines newStartLine;
  endContent ← index newLines newEndLine;
  let newSelectionStart := startOffset + selectionStartOffset in
  let newSelectionEnd :=
    if isMultiLineSelection then endOffset + selectionEndOffset
    else newSelectionStart in
  Some {| finalSelectionStart :=
            Z.min newSelectionStart (startOffset + Z.of_nat (length startContent));
          finalSelectionEnd :=
            Z.min newSelectionEnd (endOffset + Z.of_nat (length endContent));
          newStartLine := newStartLine;
          newEndLine := newEndLine;
          lineCount := length newLines |}.

(** [moveSelectedLine(direction, shouldCopy)] on a textarea holding [value]
    with the selection [selectionStart], [selectionEnd]. *)
Definition moveSelectedLine (value : jsstring) (selectionStart selectionEnd : Z)
    (direction : Direction) (shouldCopy : bool) : Outcome :=
  let lines := split nl value in
  let startLineNumber := lineNumberOf value selectionStart in
  let endLineNumber := lineNumberOf value selectionEnd in
  if atBoundary direction shouldCopy startLineNumber endLineNumber lines
  then Returned
  else
    let lineOffsets := lineOffsetsOf lines in
    let selectionStartOffset :=
      selectionStart - default 0 (index lineOffsets startLineNumber) in
    let selectionEndOffset :=
      selectionEnd - default 0 (index lineOffsets endLineNumber) in
    let newLines :=
      newLinesOf lines direction shouldCopy startLineNumber endLineNumber in
    Changed (join nl newLines)
      (frameOf newLines direction shouldCopy startLineNumber endLineNumber
         selectionStartOffset selectionEndOffset).

(** The numbers of the scroll geometry. [scrollTop] and the quotient
    [scrollHeight / newLines.length] need not be integers, so the
    arithmetic of the callback is kept abstract: the operations and
    comparisons of JavaScript numbers, and the embedding of the integers. *)
Class JSNumber (num : Type) := {
  ofInt : Z → num;
  add : num → num → num;
  sub : num → num → num;
  mul : num → num → num;
  div : num → num → num;
  lt : num → num → bool;
  gt : num → num → bool;
  mathMax : num → num → num;
  mathMin : num → num → num
}.

(** [newScrollTop], from the geometry read off the textarea, the number of
    new lines and the remapped start line. *)
Definition newScrollTopOf {num} `{JSNumber num} (direction : Direction)
    (currentScrollTop scrollHeight clientHeight : num)
    (newLinesLength : nat) (newStartLine : Z) : num :=
  let maxScroll := sub scrollHeight clientHeight in
  let lineHeight := div scrollHeight (ofInt (Z.of_nat newLinesLength)) in
  let targetLinePosition := mul lineHeight (ofInt newStartLine) in
  let buffer := mul lineHeight (ofInt 2) in
  if isUp direction && lt (sub targetLinePosition buffer) currentScrollTop
  then mathMax (ofInt 0) (sub targetLinePosition buffer)
  else if isDown direction
          && gt (add (add targetLinePosition lineHeight) buffer)
                (add currentScrollTop clientHeight)
  then mathMin maxScroll
         (add (add (sub targetLinePosition clientHeight) lineHeight) buffer)
  else currentScrollTop.

(** The scroll part of the frame callback, after the selection was set. *)
Definition scrollTopAfter {num} `{JSNumber num} (direction : Direction)
    (currentScrollTop scrollHeight clientHeight : num) (frame : Frame) : num :=
  newScrollTopOf direction currentScrollTop scrollHeight clientHeight
    (lineCount frame) (newStartLine frame).

(** Exact arithmetic on the rationals, an instance to compute with. *)
Definition exactNumber : JSNumber Qc := {|
  ofInt := fun z => Qc_of_Z z;
  add := Qcplus;
  sub := Qcminus;
  mul := Qcmult;
  div := Qcdiv;
  lt := fun x y => bool_decide (x < y)%Qc;
  gt := fun x y => bool_decide (y < x)%Qc;
  mathMax := fun x y => if bool_decide (x < y)%Qc then y else x;
  mathMin := fun x y => if bool_decide (x < y)%Qc then x else y
|}.

(** ** The keyboard handler of the line hook *)

(** The white space that [trim] removes, among the characters modelled:
    tab, line feed, vertical tab, form feed, carriage return, space and the
    no-break space. *)
Definition isWhiteSpace (c : ascii) : bool :=
  Ascii.eqb c "009" || Ascii.eqb c "010" || Ascii.eqb c "011"
  || Ascii.eqb c "012" || Ascii.eqb c "013" || Ascii.eqb c " "
  || Ascii.eqb c "160".

(** [s.trimStart()], [s.trimEnd()] and [s.trim()]. *)
Fixpoint trimStart (s : jsstring) : jsstring :=
  match s with
  | [] => []
  | c :: r => if isWhiteSpace c then trimStart r else s
  end.

Definition trimEnd (s : jsstring) : jsstring := rev (trimStart (rev s)).

Definition trim (s : jsstring) : jsstring := trimEnd (trimStart s).

(** The lower case of a character: the letters A to Z and the accented
    capitals of the Latin-1 range move up by 32. *)
Definition toLowerCaseChar (c : ascii) : ascii :=
  let n := nat_of_ascii c in
  if ((65 <=? n) && (n <=? 90) || (192 <=? n) && (n <=? 214)
      || (216 <=? n) && (n <=? 222))%nat
  then ascii_of_nat (n + 32) else c.

(** [s.toLowerCase()]. *)
Definition toLowerCase (s : jsstring) : jsstring := map toLowerCaseChar s.

(** [s.startsWith(t)] and [s.includes(t)]. *)
Fixpoint startsWith (s t : jsstring) {struct t} : bool :=
  match t, s with
  | [], _ => true
  | _ :: _, [] => false
  | c :: t', d :: s' => Ascii.eqb c d && startsWith s' t'
  end.

Fixpoint includes (s t : jsstring) : bool :=
  startsWith s t
  || match s with
     | [] => false
     | _ :: s' => includes s' t
     end.

(** What [detectMacPlatform] reads: [userAgentData] is [None] when the
    navigator has no such property, [Some None] when the property holds no
    object, and [Some (Some platform)] otherwise. *)
Record Navigator := mkNavigator {
  userAgentData : option (option jsstring);
  userAgent : jsstring
}.

(** [detectMacPlatform()]; the environment is [None] where [window] is
    undefined. *)
Definition detectMacPlatform (env : option Navigator) : bool :=
  match env with
  | None => false
  | Some navigator =>
      match userAgentData navigator with
      | Some data =>
          match data with
          | Some platform => bool_decide (platform = str "macOS")
          | None => false
          end
      | None => includes (toLowerCase (userAgent navigator)) (str "mac")
      end
  end.

(** The fields of a keyboard event that the handlers read. *)
Record KeyboardEvent := mkKeyboardEvent {
  key : jsstring;
  altKey : bool;
  metaKey : bool;
  shiftKey : bool
}.

Definition keyIs (e : KeyboardEvent) (name : string) : bool :=
  bool_decide (key e = str name).

(** The key of a direction. *)
Definition arrowKey (direction : Direction) : jsstring :=
  match direction with up => str "ArrowUp" | down => str "ArrowDown" end.

(** What [handleKeyDown] of the line hook does with an event. *)
Inductive KeyOutcome :=
| Ignored
    (** the handler returned without touching the event or the text *)
| Prevented (outcome : Outcome)
    (** [e.preventDefault()], then [moveSelectedLine] with [outcome] *).

(** [handleKeyDown(e)] of the line hook, on a textarea holding [value] with
    the selection [selectionStart], [selectionEnd]. *)
Definition handleKeyDown (env : option Navigator) (value : jsstring)
    (selectionStart selectionEnd : Z) (e : KeyboardEvent) : KeyOutcome :=
  if bool_decide (trim value = []) then Ignored
  else
    let isMac := detectMacPlatform env in
    let isMoveKeyCombination :=
      if isMac
      then (metaKey e || altKey e) && (keyIs e "ArrowUp" || keyIs e "ArrowDown")
      else altKey e && (keyIs e "ArrowUp" || keyIs e "ArrowDown") in
    if isMoveKeyCombination
    then Prevented
           (moveSelectedLine value selectionStart selectionEnd
              (if keyIs e "ArrowUp" then up else down) (shiftKey e))
    else Ignored.

(** ** The form hook *)

(** What the handlers of the form do, in order. *)
Inductive Effect :=
| PreventDefault
| ConsoleLog (text : jsstring)
| ConsoleLogFile (name : jsstring)
| Toast (title description : jsstring)
| SetMessage (message : jsstring)
| ClearFileInput.

(** [handleSubmit(e)] with the message of the current render. *)
Definition handleSubmit (message : jsstring) : list Effect :=
  PreventDefault ::
  (if bool_decide (trim message = []) then []
   else [ ConsoleLog (str "Form Submitted");
          ConsoleLog (trim message);
          Toast (str "Form Submitted") message;
          SetMessage [] ]).

(** [handleKeyDown(e)] of the form hook. *)
Definition formHandleKeyDown (message : jsstring) (e : KeyboardEvent)
  : list Effect :=
  if keyIs e "Enter" && negb (shiftKey e)
  then PreventDefault :: handleSubmit message
  else [].

(** [handleFileInput(e)]: [files] is [None] when the input holds no file
    list, and [hasInput] says whether the reference to the input is set. *)
Definition handleFileInput (files : option (list jsstring)) (hasInput : bool)
  : list Effect :=
  (match files with
   | Some names =>
       if (0 <? Z.of_nat (length names))
       then flat_map
              (fun name => [ ConsoleLog (str "File attached");
                             ConsoleLogFile name;
                             Toast (str "File Attached") name ])
              names
       else []
   | None => []
   end)
  ++ (if hasInput then [ClearFileInput] else []).

(** The message state after the effects of a handler. *)
Definition messageAfter (message : jsstring) (effects : list Effect) : jsstring :=
  fold_left
    (fun m effect => match effect with SetMessage m' => m' | _ => m end)
    effects message.

(** The toasts among the effects, as title and description. *)
Definition toastsOf (effects : list Effect) : list (jsstring * jsstring) :=
  flat_map
    (fun effect =>
       match effect with Toast title d => [(title, d)] | _ => [] end)
    effects.

(** ** The textarea component *)

(** The [onKeyDown] of the textarea: the handler of the line hook, then the
    handler handed down by the form. *)
Definition promptAreaOnKeyDown (env : option Navigator) (message : jsstring)
    (selectionStart selectionEnd : Z) (e : KeyboardEvent)
  : KeyOutcome * list Effect :=
  (handleKeyDown env message selectionStart selectionEnd e,
   formHandleKeyDown message e).

(** The style that [adjustTextareaHeight] sets: a height in pixels and
    whether the textarea scrolls. *)
Inductive OverflowY := overflowAuto | overflowHidden.

Record TextareaStyle := mkTextareaStyle {
  heightPx : Z;
  overflowY : OverflowY
}.

(** [adjustTextareaHeight()]: [None] when the reference holds no textarea;
    otherwise the two reads of [scrollHeight], the first after the height
    was reset to ["auto"], the second after the new height was set. *)
Definition adjustTextareaHeight (textarea : option (Z * Z))
  : option TextareaStyle :=
  match textarea with
  | None => None
  | Some (scrollHeight, scrollHeight') =>
      let maxHeight := 180 in
      let newHeight := Z.min scrollHeight maxHeight in
      Some {| heightPx := newHeight;
              overflowY := if scrollHeight' >? maxHeight
                           then overflowAuto else overflowHidden |}
  end.

(** ** Vocabulary of the statements *)

Local Close Scope Z_scope.

(** The lines of a text hold no separator and there is at least one. *)
Definition wfLines (ls : list jsstring) : Prop :=
  ls ≠ [] ∧ Forall (fun l => nl ∉ l) ls.

(** The start of line [i]: every earlier line and its separator. *)
Fixpoint offsetAt (ls : list jsstring) (i : nat) {struct i} : nat :=
  match i, ls with
  | S i', l :: ls' => length l + 1 + offsetAt ls' i'
  | _, _ => 0
  end.

(** The host textarea hands over offsets in order and inside the text. *)
Definition validSelection (value : jsstring) (s e : Z) : Prop :=
  (0 ≤ s ∧ s ≤ e ∧ e ≤ Z.of_nat (length value))%Z.

(** The column of a position, as the hook computes [selectionStartOffset]
    and [selectionEndOffset]. *)
Definition columnOf (value : jsstring) (pos : Z) : Z :=
  (pos - default 0 (index (lineOffsetsOf (split nl value))
                      (lineNumberOf value pos)))%Z.

(** The direction of the move back. *)
Definition opposite (direction : Direction) : Direction :=
  match direction with up => down | down => up end.

(** The text handed to [onChange], if any. *)
Definition newValueOf (o : Outcome) : option jsstring :=
  match o with
  | Returned => None
  | Changed newValue _ => Some newValue
  end.

(** The reading of C5 in the specification: the end of a range inside one
    line keeps its own column, clamped to the line it lands on. *)
Definition endColumnKept (value : jsstring) (s e : Z) (direction : Direction)
    (shouldCopy : bool) : Prop :=
  ∀ newValue frame line,
    moveSelectedLine value s e direction shouldCopy
    = Changed newValue (Some frame) →
    index (split nl newValue) (newEndLine frame) = Some line →
    columnOf newValue (finalSelectionEnd frame)
    = Z.min (columnOf value e) (Z.of_nat (length line)).


Arguments splice : simpl never.
Arguments slice : simpl never.
Arguments index : simpl never.
Arguments swap : simpl never.
Arguments lineOffsetsOf : simpl never.

(** ** Lines of a text *)

Lemma splitFrom_line l :
  nl ∉ l → splitFrom nl l = (l, []).
Proof.
  induction l as [|c l IH]; intros Hl; [done|].
  apply not_elem_of_cons in Hl as [Hc Hl]. simpl. rewrite IH by done.
  destruct (Ascii.eqb_spec c nl); congruence.
Qed.

Lemma splitFrom_app l rest :
  nl ∉ l → splitFrom nl (l ++ nl :: rest) = (l, split nl rest).
Proof.
  unfold split. induction l as [|c l IH]; intros Hl; simpl.
  - by destruct (splitFrom nl rest).
  - apply not_elem_of_cons in Hl as [Hc Hl]. rewrite IH by done.
    destruct (splitFrom nl rest). destruct (Ascii.eqb_spec c nl); congruence.
Qed.

Lemma split_line l : nl ∉ l → split nl l = [l].
Proof. intros Hl. unfold split. by rewrite splitFrom_line. Qed.

Lemma split_app l rest :
  nl ∉ l → split nl (l ++ nl :: rest) = l :: split nl rest.
Proof. intros Hl. unfold split at 1. by rewrite splitFrom_app. Qed.

Lemma split_nonempty v : split nl v ≠ [].
Proof. unfold split. by destruct (splitFrom nl v). Qed.

Lemma splitFrom_wf v :
  (nl ∉ fst (splitFrom nl v))
  ∧ Forall (fun l => nl ∉ l) (snd (splitFrom nl v)).
Proof.
  induction v as [|c v [IH1 IH2]]; simpl.
  - split; [apply not_elem_of_nil | constructor].
  - destruct (splitFrom nl v) as [l ls]. simpl in *.
    destruct (Ascii.eqb_spec c nl); simpl.
    + split; [apply not_elem_of_nil | by constructor].
    + split; [|done]. by apply not_elem_of_cons.
Qed.

Lemma split_wf v : wfLines (split nl v).
Proof.
  split; [apply split_nonempty|].
  unfold split. pose proof (splitFrom_wf v) as [H1 H2].
  destruct (splitFrom nl v). by constructor.
Qed.

Lemma join_cons l ls :
  ls ≠ [] → join nl (l :: ls) = l ++ nl :: join nl ls.
Proof. by destruct ls. Qed.

Lemma join_split v : join nl (split nl v) = v.
Proof.
  unfold split. induction v as [|c v IH]; [done|]. simpl.
  destruct (splitFrom nl v) as [l ls].
  destruct (Ascii.eqb_spec c nl) as [->|_].
  - change (join nl ([] :: l :: ls)) with (nl :: join nl (l :: ls)).
    by rewrite IH.
  - destruct ls as [|l' ls]; simpl in *; by rewrite IH.
Qed.

Lemma split_join ls : wfLines ls → split nl (join nl ls) = ls.
Proof.
  intros [Hne Hall]. induction Hall as [|l ls Hl Hall IH]; [done|].
  destruct ls as [|l' ls]; [by apply split_line|].
  rewrite join_cons by done. rewrite split_app by done.
  f_equal. by apply IH.
Qed.

(** ** The table of line starts *)

Lemma offsetAt_S ls i l :
  ls !! i = Some l → offsetAt ls (S i) = offsetAt ls i + length l + 1.
Proof.
  revert i. induction ls as [|l0 ls IH]; intros [|i] Hi; simplify_eq/=.
  - lia.
  - rewrite (IH i Hi). lia.
Qed.

Lemma offsetAt_mono ls i j l :
  ls !! i = Some l → i < j → offsetAt ls i + length l + 1 ≤ offsetAt ls j.
Proof.
  revert i j. induction ls as [|l0 ls IH]; intros [|i] [|j] Hi Hij;
    simplify_eq/=; try lia.
  assert (i < j) as Hlt by lia. specialize (IH i j Hi Hlt). lia.
Qed.

Lemma offsetAt_le_length ls i l :
  ls !! i = Some l → offsetAt ls i + length l ≤ length (join nl ls).
Proof.
  revert i. induction ls as [|l0 ls IH]; intros [|i] Hi; simplify_eq/=.
  - destruct ls; [done|]. rewrite length_app. lia.
  - destruct ls as [|l1 ls]; [done|]. specialize (IH i Hi).
    rewrite length_app. simpl in *. lia.
Qed.

Lemma fold_offsets ls suf pre :
  ls = pre ++ suf →
  fold_left
    (fun '(acc, i) (_ : jsstring) =>
       (acc ++ [ if (i =? 0)%nat then 0%Z
                 else (default 0 (acc !! (i - 1)%nat)
                       + Z.of_nat (length (default [] (ls !! (i - 1)%nat))) + 1)%Z ],
        S i))
    suf ((fun i => Z.of_nat (offsetAt ls i)) <$> seq 0 (length pre), length pre)
  = ((fun i => Z.of_nat (offsetAt ls i)) <$> seq 0 (length ls), length ls).
Proof.
  revert pre. induction suf as [|x suf IH]; intros pre Hls.
  - rewrite app_nil_r in Hls. by subst.
  - specialize (IH (pre ++ [x])). rewrite <- app_assoc in IH.
    specialize (IH Hls). rewrite length_app, Nat.add_1_r in IH.
    simpl. rewrite <- IH. do 2 f_equal.
    rewrite seq_S, fmap_app. simpl. do 2 f_equal.
    destruct (length pre) as [|k] eqn:Hk; [done|].
    replace (S k =? 0)%nat with false by done.
    replace (S k - 1)%nat with k by lia.
    rewrite list_lookup_fmap, lookup_seq_lt by lia.
    assert (is_Some (ls !! k)) as [l Hl].
    { apply lookup_lt_is_Some. rewrite Hls, length_app. lia. }
    rewrite Hl, (offsetAt_S _ _ _ Hl). simpl. lia.
Qed.

Lemma lineOffsetsOf_spec ls :
  lineOffsetsOf ls = (fun i => Z.of_nat (offsetAt ls i)) <$> seq 0 (length ls).
Proof.
  unfold lineOffsetsOf, reduce.
  pose proof (fold_offsets ls ls [] eq_refl) as H. simpl in H.
  by rewrite H.
Qed.

Lemma index_nat {A} (a : list A) (i : nat) : index a (Z.of_nat i) = a !! i.
Proof.
  unfold index. destruct (Z.ltb_spec (Z.of_nat i) 0); [lia|].
  by rewrite Nat2Z.id.
Qed.

Lemma index_lineOffsetsOf ls i :
  i < length ls →
  index (lineOffsetsOf ls) (Z.of_nat i) = Some (Z.of_nat (offsetAt ls i)).
Proof.
  intros Hi. rewrite index_nat, lineOffsetsOf_spec, list_lookup_fmap.
  by rewrite lookup_seq_lt.
Qed.

(** ** The line of a position *)

Lemma substring_prefix v p :
  substring v 0 p = take (clampIndex (length v) p) v.
Proof.
  unfold substring. replace (clampIndex (length v) 0) with 0.
  - by rewrite Nat.max_0_l, Nat.min_0_l, Nat.sub_0_r.
  - unfold clampIndex. lia.
Qed.

Lemma take_line_split l c : nl ∉ l → split nl (take c l) = [take c l].
Proof.
  intros Hl. apply split_line. intros Hin. apply Hl.
  apply elem_of_take in Hin as (i & Hi & _). by eapply list_elem_of_lookup_2.
Qed.

Lemma length_split_take ls i l c :
  wfLines ls → ls !! i = Some l → c ≤ length l →
  length (split nl (take (offsetAt ls i + c) (join nl ls))) = S i.
Proof.
  intros [_ Hall]. revert i.
  induction Hall as [|l0 ls Hl0 Hall IH]; intros i Hi Hc; [done|].
  destruct i as [|i]; simplify_eq/=.
  - destruct ls as [|l1 ls].
    + by rewrite take_line_split.
    + rewrite take_app_le by done. by rewrite take_line_split.
  - destruct ls as [|l1 ls]; [done|].
    rewrite take_app_ge by lia.
    replace (length l0 + 1 + offsetAt (l1 :: ls) i + c - length l0)
      with (S (offsetAt (l1 :: ls) i + c)) by lia.
    rewrite firstn_cons, split_app by done. simpl. f_equal. by apply IH.
Qed.

Lemma position_line ls n :
  wfLines ls → n ≤ length (join nl ls) →
  ∃ i l c, ls !! i = Some l ∧ c ≤ length l ∧ n = offsetAt ls i + c.
Proof.
  intros [Hne _]. revert n. induction ls as [|l0 ls IH]; intros n Hn; [done|].
  destruct (decide (n ≤ length l0)) as [Hle|Hgt].
  - exists 0, l0, n. by destruct ls.
  - destruct ls as [|l1 ls]; [simpl in Hn; lia|].
    rewrite join_cons, length_app, length_cons in Hn by done.
    destruct (IH ltac:(done) (n - length l0 - 1)) as (i & l & c & Hi & Hc & Heq);
      [lia|].
    exists (S i), l, c. split_and!; [done..|].
    change (offsetAt (l0 :: l1 :: ls) (S i))
      with (length l0 + 1 + offsetAt (l1 :: ls) i). lia.
Qed.

Lemma lineNumberOf_at ls i l c :
  wfLines ls → ls !! i = Some l → c ≤ length l →
  lineNumberOf (join nl ls) (Z.of_nat (offsetAt ls i + c)) = Z.of_nat i.
Proof.
  intros Hwf Hi Hc. unfold lineNumberOf. rewrite substring_prefix.
  pose proof (offsetAt_le_length _ _ _ Hi).
  replace (clampIndex _ _) with (offsetAt ls i + c) by (unfold clampIndex; lia).
  rewrite (length_split_take _ _ _ _ Hwf Hi Hc). lia.
Qed.

(** Every position, in range or not, is on one of the lines. *)
Lemma lineNumberOf_resolve value p :
  ∃ i l c, split nl value !! i = Some l ∧ c ≤ length l
    ∧ lineNumberOf value p = Z.of_nat i
    ∧ clampIndex (length value) p = offsetAt (split nl value) i + c.
Proof.
  pose proof (split_wf value) as Hwf.
  destruct (position_line (split nl value) (clampIndex (length value) p) Hwf)
    as (i & l & c & Hi & Hc & Heq).
  { rewrite join_split. unfold clampIndex. lia. }
  exists i, l, c. split_and!; [done..| |done].
  unfold lineNumberOf. rewrite substring_prefix, Heq.
  pose proof (length_split_take _ _ _ _ Hwf Hi Hc) as Hlen.
  rewrite join_split in Hlen. rewrite Hlen. lia.
Qed.

(** The reads [lines[startLineNumber]] and [lineOffsets[startLineNumber]],
    and those at the end line, are never [undefined]. *)
Lemma lineNumber_in_range value p :
  is_Some (index (split nl value) (lineNumberOf value p))
  ∧ is_Some (index (lineOffsetsOf (split nl value)) (lineNumberOf value p)).
Proof.
  destruct (lineNumberOf_resolve value p) as (i & l & _ & Hi & _ & -> & _).
  rewrite index_nat, index_lineOffsetsOf by by eapply lookup_lt_Some.
  by rewrite Hi.
Qed.

(** The exchange of a one-line move reads two lines of the array. *)
Lemma swap_in_range value s e direction :
  lineNumberOf value s = lineNumberOf value e →
  atBoundary direction false (lineNumberOf value s) (lineNumberOf value e)
    (split nl value) = false →
  is_Some (index (split nl value) (lineNumberOf value s))
  ∧ is_Some (index (split nl value)
               (if isUp direction then (lineNumberOf value s - 1)%Z
                else (lineNumberOf value e + 1)%Z)).
Proof.
  intros Hline Hbound. split; [apply lineNumber_in_range|].
  rewrite <- Hline in *. unfold atBoundary in Hbound.
  destruct (lineNumberOf_resolve value s) as (i & l & _ & Hi & _ & Hls & _).
  rewrite Hls in *. apply lookup_lt_Some in Hi.
  destruct direction; simpl in *.
  - destruct (Z.eqb_spec (Z.of_nat i) 0); [done|].
    replace (Z.of_nat i - 1)%Z with (Z.of_nat (i - 1)) by lia.
    rewrite index_nat. apply lookup_lt_is_Some. lia.
  - destruct (Z.eqb_spec (Z.of_nat i)
                (Z.of_nat (length (split nl value)) - 1)); [done|].
    replace (Z.of_nat i + 1)%Z with (Z.of_nat (i + 1)) by lia.
    rewrite index_nat. apply lookup_lt_is_Some. lia.
Qed.

(** ** Arrays cut at the selected block *)

Lemma relIndex_nat len i : i ≤ len → relIndex len (Z.of_nat i) = i.
Proof.
  intros Hi. unfold relIndex.
  destruct (Z.ltb_spec (Z.of_nat i) 0); lia.
Qed.

Lemma splice_at {A} (a p b r items : list A) start deleteCount :
  a = p ++ b ++ r →
  start = Z.of_nat (length p) →
  deleteCount = Z.of_nat (length b) →
  splice a start deleteCount items = (p ++ items ++ r, b).
Proof.
  intros -> -> ->. unfold splice.
  rewrite relIndex_nat by (rewrite length_app; lia).
  replace (Z.to_nat _) with (length b) by (rewrite !length_app; lia).
  rewrite take_app_length, drop_app_length.
  rewrite (app_assoc p b r), drop_app_length' by (rewrite length_app; lia).
  by rewrite take_app_length.
Qed.

Lemma slice_at {A} (a p b r : list A) from to :
  a = p ++ b ++ r →
  from = Z.of_nat (length p) →
  to = Z.of_nat (length p + length b) →
  slice a from to = b.
Proof.
  intros -> -> ->. unfold slice.
  rewrite !relIndex_nat by (rewrite !length_app; lia).
  rewrite drop_app_length.
  replace (length p + length b - length p) with (length b) by lia.
  by rewrite take_app_length.
Qed.

Lemma swap_adjacent {A} (a p r : list A) x y i j :
  a = p ++ x :: y :: r →
  (i = Z.of_nat (length p) ∧ j = Z.of_nat (length p + 1)
   ∨ j = Z.of_nat (length p) ∧ i = Z.of_nat (length p + 1)) →
  swap a i j = p ++ y :: x :: r.
Proof.
  intros -> Hij.
  assert ((p ++ x :: y :: r) !! length p = Some x) as H0
    by by rewrite list_lookup_middle.
  assert ((p ++ x :: y :: r) !! (length p + 1) = Some y) as H1.
  { rewrite lookup_app_r, Nat.add_comm, Nat.add_sub by lia. done. }
  destruct Hij as [[-> ->]|[-> ->]]; unfold swap;
    rewrite !index_nat, !Nat2Z.id, H0, H1.
  - rewrite (insert_app_r_alt p _ (length p)) by lia.
    rewrite Nat.sub_diag. simpl.
    rewrite (insert_app_r_alt p _ (length p + 1)) by lia.
    by rewrite Nat.add_comm, Nat.add_sub.
  - rewrite (insert_app_r_alt p _ (length p + 1)) by lia.
    rewrite Nat.add_comm, Nat.add_sub. simpl.
    rewrite (insert_app_r_alt p _ (length p)) by lia.
    by rewrite Nat.sub_diag.
Qed.

(** A selection of lines [i] to [j] cuts the array into the lines before it,
    the block and the lines after it. *)
Lemma cut_block {A} (a : list A) i j :
  i ≤ j < length a →
  ∃ p b r, a = p ++ b ++ r ∧ length p = i ∧ length b = j - i + 1.
Proof.
  intros Hij. exists (take i a), (take (j - i + 1) (drop i a)), (drop (j + 1) a).
  split_and!.
  - rewrite <- (take_drop i a) at 1. f_equal.
    rewrite <- (take_drop (j - i + 1) (drop i a)) at 1. f_equal.
    rewrite drop_drop. f_equal. lia.
  - rewrite length_take. lia.
  - rewrite length_take, length_drop. lia.
Qed.

Lemma block_length_pos {A} (b : list A) : b ≠ [] → 0 < length b.
Proof. destruct b; [done|simpl; lia]. Qed.

Section NewLines.
Context (p b r : list jsstring) (i j : Z).
Hypothesis Hb : b ≠ [].
Hypothesis Hi : i = Z.of_nat (length p).
Hypothesis Hj : j = (Z.of_nat (length p + length b) - 1)%Z.

Lemma newLinesOf_copy direction :
  newLinesOf (p ++ b ++ r) direction true i j = p ++ b ++ b ++ r.
Proof using Hb Hi Hj.
  pose proof (block_length_pos b Hb) as Hpos. unfold newLinesOf.
  destruct (Z.eqb_spec i j) as [Heq|Hne]; cbn.
  - assert (length b = 1) as Hlen by lia.
    destruct b as [|x [|??]]; simplify_eq; cbn in *.
    rewrite index_nat, list_lookup_middle by done. cbn.
    destruct direction; cbn.
    + by rewrite (splice_at _ p [] (x :: r) [x]).
    + rewrite (splice_at _ (p ++ [x]) [] r [x]);
        rewrite <- ?app_assoc, ?length_app; cbn; [done..|lia|done].
  - rewrite (slice_at _ p b r) by (done || lia).
    destruct direction; cbn.
    + by rewrite (splice_at _ p [] (b ++ r) b).
    + rewrite (splice_at _ (p ++ b) [] r b);
        rewrite <- ?app_assoc, ?length_app; cbn; [done..|lia|done].
Qed.

Lemma newLinesOf_move_down y :
  newLinesOf (p ++ b ++ y :: r) down false i j = p ++ y :: b ++ r.
Proof using Hb Hi Hj.
  pose proof (block_length_pos b Hb) as Hpos. unfold newLinesOf.
  destruct (Z.eqb_spec i j) as [Heq|Hne]; cbn.
  - assert (length b = 1) as Hlen by lia.
    destruct b as [|x [|??]]; simplify_eq; cbn in *.
    apply (swap_adjacent _ p r x y); [done|]. left. lia.
  - rewrite (splice_at _ p b (y :: r) []) by (done || lia). cbn.
    rewrite (splice_at _ (p ++ [y]) [] r b);
      rewrite <- ?app_assoc, ?length_app; cbn; [done..|lia|done].
Qed.

Lemma newLinesOf_move_up y :
  newLinesOf (p ++ y :: b ++ r) up false (i + 1) (j + 1) = p ++ b ++ y :: r.
Proof using Hb Hi Hj.
  pose proof (block_length_pos b Hb) as Hpos. unfold newLinesOf.
  destruct (Z.eqb_spec (i + 1) (j + 1)) as [Heq|Hne]; cbn.
  - assert (length b = 1) as Hlen by lia.
    destruct b as [|x [|??]]; simplify_eq; cbn in *.
    apply (swap_adjacent _ p r y x); [done|]. right. lia.
  - rewrite (splice_at _ (p ++ [y]) b r []);
      rewrite <- ?app_assoc, ?length_app; cbn; [|done|lia|lia].
    by rewrite (splice_at _ p [] (y :: r) b) by (done || lia).
Qed.
End NewLines.

Lemma splice_nothing {A} (a : list A) start deleteCount :
  (deleteCount ≤ 0)%Z → splice a start deleteCount [] = (a, []).
Proof.
  intros Hdc. unfold splice.
  replace (Z.to_nat _) with 0 by lia.
  by rewrite Nat.add_0_r, take_0, app_nil_l, take_drop.
Qed.

Lemma cut_block_up {A} (a : list A) i j :
  1 ≤ i → i ≤ j < length a →
  ∃ p y b r, a = p ++ y :: b ++ r ∧ length p + 1 = i ∧ length b = j - i + 1.
Proof.
  intros Hi Hij. destruct (cut_block a i j Hij) as (p0 & b & r & -> & Hp & Hb).
  destruct (decide (p0 = [])) as [->|Hne]; [simpl in Hp; lia|].
  destruct (exists_last Hne) as (p & y & ->).
  exists p, y, b, r. rewrite length_app in Hp. simpl in Hp.
  by rewrite <- app_assoc.
Qed.

Lemma cut_block_down {A} (a : list A) i j :
  i ≤ j → j + 1 < length a →
  ∃ p b y r, a = p ++ b ++ y :: r ∧ length p = i ∧ length b = j - i + 1.
Proof.
  intros Hi Hj. destruct (cut_block a i j) as (p & b & r & -> & Hp & Hb); [lia|].
  destruct r as [|y r].
  - rewrite !length_app in Hj. simpl in Hj. lia.
  - by exists p, b, y, r.
Qed.

(** The three shapes of the new array for a selection in order. *)
Lemma newLinesOf_valid ls direction shouldCopy (i j : nat) :
  i ≤ j < length ls →
  atBoundary direction shouldCopy (Z.of_nat i) (Z.of_nat j) ls = false →
  ∃ p b r, length b = j - i + 1 ∧
    match shouldCopy, direction with
    | true, _ =>
        ls = p ++ b ++ r ∧ length p = i
        ∧ newLinesOf ls direction shouldCopy (Z.of_nat i) (Z.of_nat j)
          = p ++ b ++ b ++ r
    | false, up =>
        ∃ y, ls = p ++ y :: b ++ r ∧ length p + 1 = i
        ∧ newLinesOf ls direction shouldCopy (Z.of_nat i) (Z.of_nat j)
          = p ++ b ++ y :: r
    | false, down =>
        ∃ y, ls = p ++ b ++ y :: r ∧ length p = i
        ∧ newLinesOf ls direction shouldCopy (Z.of_nat i) (Z.of_nat j)
          = p ++ y :: b ++ r
    end.
Proof.
  intros Hij Hbound. unfold atBoundary in Hbound.
  destruct shouldCopy, direction; simpl in Hbound.
  - destruct (cut_block ls i j Hij) as (p & b & r & -> & Hp & Hb).
    exists p, b, r. split_and!; [done..|].
    apply newLinesOf_copy; [|lia..]. intros ->. simpl in Hb. lia.
  - destruct (cut_block ls i j Hij) as (p & b & r & -> & Hp & Hb).
    exists p, b, r. split_and!; [done..|].
    apply newLinesOf_copy; [|lia..]. intros ->. simpl in Hb. lia.
  - destruct (Z.eqb_spec (Z.of_nat i) 0) as [?|Hne]; [done|].
    destruct (cut_block_up ls i j) as (p & y & b & r & -> & Hp & Hb); [lia..|].
    exists p, b, r. split; [done|]. exists y. split_and!; [done..|].
    replace (Z.of_nat i) with (Z.of_nat (length p) + 1)%Z by lia.
    replace (Z.of_nat j) with (Z.of_nat (length p + length b) - 1 + 1)%Z by lia.
    apply newLinesOf_move_up; [|done..]. intros ->. simpl in Hb. lia.
  - destruct (Z.eqb_spec (Z.of_nat j) (Z.of_nat (length ls) - 1)) as [?|Hne];
      [done|].
    destruct (cut_block_down ls i j) as (p & b & y & r & -> & Hp & Hb); [lia..|].
    exists p, b, r. split; [done|]. exists y. split_and!; [done..|].
    apply newLinesOf_move_down; [|lia..]. intros ->. simpl in Hb. lia.
Qed.

Lemma wfLines_Permutation ls ls' :
  Permutation ls ls' → wfLines ls → wfLines ls'.
Proof.
  intros Hp [Hne Hall]. split.
  - intros ->. by apply Permutation_nil_r in Hp.
  - by rewrite <- Hp.
Qed.

Lemma wfLines_grow p b r : wfLines (p ++ b ++ r) → wfLines (p ++ b ++ b ++ r).
Proof.
  intros [Hne Hall]. split.
  - intros Heq. apply Hne.
    apply app_eq_nil in Heq as [-> Heq]. apply app_eq_nil in Heq as [-> Heq].
    done.
  - rewrite !Forall_app in *. tauto.
Qed.

(** A move, in either direction and for any selection, rearranges the
    lines. *)
Lemma newLinesOf_move_Permutation ls direction (i j : nat) :
  i < length ls → j < length ls →
  atBoundary direction false (Z.of_nat i) (Z.of_nat j) ls = false →
  Permutation ls (newLinesOf ls direction false (Z.of_nat i) (Z.of_nat j)).
Proof.
  intros Hi Hj Hbound. destruct (decide (i ≤ j)) as [Hij|Hji].
  - destruct (newLinesOf_valid ls direction false i j) as (p & b & r & Hb & H);
      [lia|done|].
    destruct direction; destruct H as (y & -> & _ & ->).
    + apply Permutation_app_head. apply Permutation_middle.
    + apply Permutation_app_head. symmetry. apply Permutation_middle.
  - unfold newLinesOf.
    destruct (Z.eqb_spec (Z.of_nat i) (Z.of_nat j)) as [?|_]; [lia|]. cbn.
    rewrite splice_nothing by lia. cbv beta iota.
    by rewrite splice_nothing by lia.
Qed.

(** ** One call, with the selection resolved to lines and columns *)

Lemma moveSelectedLine_at value s e direction shouldCopy (i j : nat) :
  lineNumberOf value s = Z.of_nat i →
  lineNumberOf value e = Z.of_nat j →
  i < length (split nl value) →
  j < length (split nl value) →
  moveSelectedLine value s e direction shouldCopy =
    if atBoundary direction shouldCopy (Z.of_nat i) (Z.of_nat j) (split nl value)
    then Returned
    else
      Changed
        (join nl (newLinesOf (split nl value) direction shouldCopy
                    (Z.of_nat i) (Z.of_nat j)))
        (frameOf
           (newLinesOf (split nl value) direction shouldCopy
              (Z.of_nat i) (Z.of_nat j))
           direction shouldCopy (Z.of_nat i) (Z.of_nat j)
           (s - Z.of_nat (offsetAt (split nl value) i))
           (e - Z.of_nat (offsetAt (split nl value) j))).
Proof.
  intros Hs He Hi Hj. unfold moveSelectedLine. rewrite Hs, He.
  by rewrite !index_lineOffsetsOf.
Qed.

Lemma frameOf_at nls direction shouldCopy i j so eo (ns ne : nat) a b :
  newStartLineOf direction shouldCopy i = Z.of_nat ns →
  newEndLineOf direction shouldCopy j = Z.of_nat ne →
  nls !! ns = Some a →
  nls !! ne = Some b →
  frameOf nls direction shouldCopy i j so eo =
    Some {| finalSelectionStart :=
              Z.min (Z.of_nat (offsetAt nls ns) + so)
                    (Z.of_nat (offsetAt nls ns) + Z.of_nat (length a));
            finalSelectionEnd :=
              Z.min (if negb (i =? j)%Z then Z.of_nat (offsetAt nls ne) + eo
                     else Z.of_nat (offsetAt nls ns) + so)
                    (Z.of_nat (offsetAt nls ne) + Z.of_nat (length b));
            newStartLine := Z.of_nat ns;
            newEndLine := Z.of_nat ne;
            lineCount := length nls |}%Z.
Proof.
  intros Hns Hne Ha Hb. unfold frameOf. rewrite Hns, Hne.
  apply lookup_lt_Some in Ha as Ha'. apply lookup_lt_Some in Hb as Hb'.
  rewrite !index_lineOffsetsOf by done.
  by rewrite !index_nat, Ha, Hb.
Qed.

Lemma selection_lines value s e :
  validSelection value s e →
  ∃ (i j : nat) li lj (cs ce : nat),
    split nl value !! i = Some li ∧ split nl value !! j = Some lj
    ∧ cs ≤ length li ∧ ce ≤ length lj
    ∧ lineNumberOf value s = Z.of_nat i ∧ lineNumberOf value e = Z.of_nat j
    ∧ s = Z.of_nat (offsetAt (split nl value) i + cs)
    ∧ e = Z.of_nat (offsetAt (split nl value) j + ce)
    ∧ i ≤ j.
Proof.
  intros (Hs & Hse & He).
  destruct (lineNumberOf_resolve value s) as (i & li & cs & Hi & Hcs & Hls & Hps).
  destruct (lineNumberOf_resolve value e) as (j & lj & ce & Hj & Hce & Hle & Hpe).
  unfold clampIndex in Hps, Hpe.
  exists i, j, li, lj, cs, ce. split_and!; [done..|lia|lia|].
  destruct (decide (i ≤ j)) as [|Hji]; [done|].
  pose proof (offsetAt_mono _ j i _ Hj ltac:(lia)). lia.
Qed.

Lemma newLinesOf_wf ls direction shouldCopy (i j : nat) :
  wfLines ls → i ≤ j < length ls →
  atBoundary direction shouldCopy (Z.of_nat i) (Z.of_nat j) ls = false →
  wfLines (newLinesOf ls direction shouldCopy (Z.of_nat i) (Z.of_nat j)).
Proof.
  intros Hwf Hij Hbound. destruct shouldCopy.
  - destruct (newLinesOf_valid ls direction true i j Hij Hbound)
      as (p & b & r & _ & -> & _ & ->).
    by apply wfLines_grow.
  - eapply wfLines_Permutation; [|done].
    apply newLinesOf_move_Permutation; [lia..|done].
Qed.

Lemma newLinesOf_length ls direction shouldCopy (i j : nat) :
  i ≤ j < length ls →
  atBoundary direction shouldCopy (Z.of_nat i) (Z.of_nat j) ls = false →
  length (newLinesOf ls direction shouldCopy (Z.of_nat i) (Z.of_nat j))
  = length ls + (if shouldCopy then j - i + 1 else 0).
Proof.
  intros Hij Hbound.
  destruct (newLinesOf_valid ls direction shouldCopy i j Hij Hbound)
    as (p & b & r & Hb & H).
  destruct shouldCopy, direction.
  - destruct H as (-> & _ & ->). rewrite !length_app. lia.
  - destruct H as (-> & _ & ->). rewrite !length_app. lia.
  - destruct H as (y & -> & _ & ->). rewrite !length_app. simpl.
    rewrite !length_app. simpl. lia.
  - destruct H as (y & -> & _ & ->). rewrite !length_app. simpl.
    rewrite !length_app. simpl. lia.
Qed.

(** The remapped lines are lines of the new array. *)
Lemma newLine_in_range ls direction shouldCopy (i j : nat) :
  i ≤ j < length ls →
  atBoundary direction shouldCopy (Z.of_nat i) (Z.of_nat j) ls = false →
  ∃ ns ne : nat,
    newStartLineOf direction shouldCopy (Z.of_nat i) = Z.of_nat ns
    ∧ newEndLineOf direction shouldCopy (Z.of_nat j) = Z.of_nat ne
    ∧ ns ≤ ne
    ∧ ne < length (newLinesOf ls direction shouldCopy (Z.of_nat i) (Z.of_nat j))
    ∧ (ns = ne ↔ i = j).
Proof.
  intros Hij Hbound. rewrite (newLinesOf_length _ _ _ _ _ Hij Hbound).
  unfold atBoundary in Hbound. unfold newStartLineOf, newEndLineOf.
  destruct shouldCopy, direction; simpl in Hbound |- *.
  - exists i, j. lia.
  - exists (i + 1), (j + 1). lia.
  - destruct (Z.eqb_spec (Z.of_nat i) 0); [done|].
    exists (i - 1), (j - 1). lia.
  - destruct (Z.eqb_spec (Z.of_nat j) (Z.of_nat (length ls) - 1)); [done|].
    exists (i + 1), (j + 1). lia.
Qed.

(** A call that passes the boundary check, for a selection in order: the
    selection resolved to lines and columns, the new lines, the remapped
    lines and the frame in closed form. *)
Lemma moveSelectedLine_valid value s e direction shouldCopy :
  validSelection value s e →
  moveSelectedLine value s e direction shouldCopy ≠ Returned →
  ∃ (i j cs ce ns ne : nat) (li lj a b : jsstring) (nls : list jsstring),
    split nl value !! i = Some li ∧ split nl value !! j = Some lj ∧ i ≤ j
    ∧ cs ≤ length li ∧ ce ≤ length lj
    ∧ lineNumberOf value s = Z.of_nat i ∧ lineNumberOf value e = Z.of_nat j
    ∧ s = Z.of_nat (offsetAt (split nl value) i + cs)
    ∧ e = Z.of_nat (offsetAt (split nl value) j + ce)
    ∧ atBoundary direction shouldCopy (Z.of_nat i) (Z.of_nat j)
        (split nl value) = false
    ∧ nls = newLinesOf (split nl value) direction shouldCopy
              (Z.of_nat i) (Z.of_nat j)
    ∧ wfLines nls
    ∧ newStartLineOf direction shouldCopy (Z.of_nat i) = Z.of_nat ns
    ∧ newEndLineOf direction shouldCopy (Z.of_nat j) = Z.of_nat ne
    ∧ nls !! ns = Some a ∧ nls !! ne = Some b ∧ ns ≤ ne ∧ (ns = ne ↔ i = j)
    ∧ moveSelectedLine value s e direction shouldCopy
      = Changed (join nl nls)
          (Some {| finalSelectionStart :=
                     Z.of_nat (offsetAt nls ns + Nat.min cs (length a));
                   finalSelectionEnd :=
                     if decide (i = j)
                     then Z.of_nat (offsetAt nls ns + Nat.min cs (length a))
                     else Z.of_nat (offsetAt nls ne + Nat.min ce (length b));
                   newStartLine := Z.of_nat ns;
                   newEndLine := Z.of_nat ne;
                   lineCount := length nls |}).
Proof.
  intros Hvalid Hrun.
  destruct (selection_lines value s e Hvalid)
    as (i & j & li & lj & cs & ce & Hi & Hj & Hcs & Hce & Hls & Hle & Hs & He & Hij).
  apply lookup_lt_Some in Hi as Hi'. apply lookup_lt_Some in Hj as Hj'.
  rewrite (moveSelectedLine_at value s e direction shouldCopy i j) in Hrun |- *
    by done.
  destruct (atBoundary _ _ _ _ _) eqn:Hbound; [done|]. clear Hrun.
  set (nls := newLinesOf (split nl value) direction shouldCopy
                (Z.of_nat i) (Z.of_nat j)).
  destruct (newLine_in_range (split nl value) direction shouldCopy i j)
    as (ns & ne & Hns & Hne & Hnse & Hlen & Hiff); [lia|done|].
  fold nls in Hlen.
  destruct (lookup_lt_is_Some_2 nls ns) as [a Ha]; [lia|].
  destruct (lookup_lt_is_Some_2 nls ne) as [b Hb]; [lia|].
  exists i, j, cs, ce, ns, ne, li, lj, a, b, nls.
  split_and!; try done.
  { apply newLinesOf_wf; [apply split_wf|lia|done]. }
  rewrite (frameOf_at nls direction shouldCopy _ _ _ _ ns ne a b) by done.
  do 2 f_equal. destruct (decide (i = j)) as [->|Hne'].
  - assert (ne = ns) as -> by (symmetry; by apply Hiff). simplify_eq.
    rewrite Z.eqb_refl. simpl. f_equal; lia.
  - destruct (Z.eqb_spec (Z.of_nat i) (Z.of_nat j)); [lia|]. simpl.
    f_equal; lia.
Qed.

Lemma moveSelectedLine_Returned value s e direction shouldCopy :
  moveSelectedLine value s e direction shouldCopy = Returned
  ↔ atBoundary direction shouldCopy (lineNumberOf value s) (lineNumberOf value e)
      (split nl value) = true.
Proof.
  unfold moveSelectedLine. by destruct (atBoundary _ _ _ _ _).
Qed.

Lemma copy_not_Returned value s e direction :
  moveSelectedLine value s e direction true ≠ Returned.
Proof. rewrite moveSelectedLine_Returned. unfold atBoundary. done. Qed.

(** ** The model on the scenarios of the specification *)

Example scenario_A :
  moveSelectedLine (str "alpha" ++ nl :: str "beta" ++ nl :: str "gamma") 6 6
    up false
  = Changed (str "beta" ++ nl :: str "alpha" ++ nl :: str "gamma")
      (Some (mkFrame 0 0 0 0 3)).
Proof. reflexivity. Qed.

Example scenario_C : moveSelectedLine (str "x") 0 0 down false = Returned.
Proof. reflexivity. Qed.

Example scenario_D :
  newValueOf
    (moveSelectedLine (str "a" ++ nl :: str "bb" ++ nl :: str "ccc") 0 3
       down false)
  = Some (str "ccc" ++ nl :: str "a" ++ nl :: str "bb").
Proof. reflexivity. Qed.

(** An empty text is one empty line, and a trailing separator ends in an
    empty line. *)
Example split_empty : split nl [] = [[]].
Proof. reflexivity. Qed.

Example split_trailing : split nl (str "a" ++ [nl]) = [str "a"; []].
Proof. reflexivity. Qed.

(** ** Moves keep the lines *)

(** C9. A move that passes the boundary check, in either direction and for
    a selection of one line or of several, returns a text with as many lines
    as before, and its lines are a rearrangement of the lines before: no
    line is created and none is lost. *)
Theorem move_preserves_lines value s e direction newValue frame :
  moveSelectedLine value s e direction false = Changed newValue frame →
  length (split nl newValue) = length (split nl value)
  ∧ Permutation (split nl value) (split nl newValue).
Proof.
  intros Hrun.
  destruct (lineNumberOf_resolve value s) as (i & li & _ & Hi & _ & Hls & _).
  destruct (lineNumberOf_resolve value e) as (j & lj & _ & Hj & _ & Hle & _).
  apply lookup_lt_Some in Hi. apply lookup_lt_Some in Hj.
  rewrite (moveSelectedLine_at value s e direction false i j) in Hrun by done.
  destruct (atBoundary _ _ _ _ _) eqn:Hbound; [done|]. simplify_eq.
  pose proof (newLinesOf_move_Permutation _ direction i j Hi Hj Hbound) as Hperm.
  rewrite split_join by (eapply wfLines_Permutation; [done|apply split_wf]).
  split; [|done]. symmetry. by apply Permutation_length.
Qed.

Lemma move_preserves_lines_witness :
  Permutation
    (split nl (str "a" ++ nl :: str "bb" ++ nl :: str "ccc"))
    (split nl (str "ccc" ++ nl :: str "a" ++ nl :: str "bb")).
Proof.
  refine (proj2 (move_preserves_lines
    (str "a" ++ nl :: str "bb" ++ nl :: str "ccc") 0 3 down
    (str "ccc" ++ nl :: str "a" ++ nl :: str "bb")
    (Some (mkFrame 4 7 1 2 3)) _)).
  reflexivity.
Defined.

(** ** The boundary *)

(** C2. A move up of a selection that starts on line 0, and a move down of
    a selection that ends on the last line, return at the boundary check:
    neither [onChange] nor [setSelectionRange] is called, so text and
    selection stay as they are. A copy is not held back: copying up a
    selection that starts on line 0 puts the copy of its lines at index 0,
    and copying down a selection that ends on the last line appends the copy
    of its lines. *)
Theorem boundary_noop value s e :
  (lineNumberOf value s = 0%Z →
   moveSelectedLine value s e up false = Returned)
  ∧ (lineNumberOf value e = (Z.of_nat (length (split nl value)) - 1)%Z →
     moveSelectedLine value s e down false = Returned)
  ∧ (validSelection value s e → lineNumberOf value s = 0%Z →
     ∃ frame,
       moveSelectedLine value s e up true
       = Changed
           (join nl (take (Z.to_nat (lineNumberOf value e) + 1) (split nl value)
                     ++ split nl value))
           (Some frame))
  ∧ (validSelection value s e →
     lineNumberOf value e = (Z.of_nat (length (split nl value)) - 1)%Z →
     ∃ frame,
       moveSelectedLine value s e down true
       = Changed
           (join nl (split nl value
                     ++ drop (Z.to_nat (lineNumberOf value s)) (split nl value)))
           (Some frame)).
Proof.
  split_and!.
  - intros Hs. apply moveSelectedLine_Returned. unfold atBoundary.
    by rewrite Hs.
  - intros He. apply moveSelectedLine_Returned. unfold atBoundary.
    rewrite He, Z.eqb_refl. done.
  - intros Hvalid Hs.
    destruct (moveSelectedLine_valid value s e up true Hvalid
                (copy_not_Returned _ _ _ _))
      as (i & j & cs & ce & ns & ne & li & lj & a & b & nls & Hi & Hj & Hij
          & _ & _ & Hls & Hle & _ & _ & Hbound & Hnls & _ & _ & _ & _ & _ & _
          & _ & Hrun).
    apply lookup_lt_Some in Hj as Hj'.
    destruct (newLinesOf_valid (split nl value) up true i j)
      as (p & blk & r & Hblk & Hsplit & Hp & Hnew); [lia|done|].
    rewrite Hrun, Hnls, Hnew, Hle, Nat2Z.id, Hsplit. eexists. do 2 f_equal.
    assert (i = 0) as -> by lia. destruct p; [|done]. simpl.
    by rewrite take_app_length' by lia.
  - intros Hvalid He.
    destruct (moveSelectedLine_valid value s e down true Hvalid
                (copy_not_Returned _ _ _ _))
      as (i & j & cs & ce & ns & ne & li & lj & a & b & nls & Hi & Hj & Hij
          & _ & _ & Hls & Hle & _ & _ & Hbound & Hnls & _ & _ & _ & _ & _ & _
          & _ & Hrun).
    apply lookup_lt_Some in Hj as Hj'.
    destruct (newLinesOf_valid (split nl value) down true i j)
      as (p & blk & r & Hblk & Hsplit & Hp & Hnew); [lia|done|].
    rewrite Hrun, Hnls, Hnew, Hls, Nat2Z.id, Hsplit. eexists. do 2 f_equal.
    rewrite Hsplit, !length_app in He.
    assert (length r = 0) as Hr by lia. destruct r; [|done].
    rewrite !app_nil_r, drop_app_length' by done. by rewrite <- app_assoc.
Qed.

Lemma boundary_noop_witness :
  moveSelectedLine (str "x") 0 0 up false = Returned
  ∧ moveSelectedLine (str "x") 0 0 down false = Returned
  ∧ (∃ frame, moveSelectedLine (str "x") 0 0 up true
              = Changed (str "x" ++ nl :: str "x") (Some frame))
  ∧ (∃ frame, moveSelectedLine (str "x") 0 0 down true
              = Changed (str "x" ++ nl :: str "x") (Some frame)).
Proof.
  assert (validSelection (str "x") 0 0) as Hvalid
    by (unfold validSelection; simpl; lia).
  destruct (boundary_noop (str "x") 0 0) as (H1 & H2 & H3 & H4).
  split_and!.
  - apply H1. reflexivity.
  - apply H2. reflexivity.
  - apply (H3 Hvalid). reflexivity.
  - apply (H4 Hvalid). reflexivity.
Defined.

(** ** Copies grow the text by the block *)

(** C3. For a selection in order that spans [k] lines ([k] at least 1), a
    copy up and a copy down return a text with exactly [k] more lines; the
    [k] lines at the insertion index are a copy of the selected lines, and
    the new lines without them are the lines before. *)
Theorem copy_growth value s e direction :
  validSelection value s e →
  let i := lineNumberOf value s in
  let j := lineNumberOf value e in
  let k := Z.to_nat (j - i + 1) in
  let at_ := Z.to_nat (if isUp direction then i else j + 1) in
  ∃ newValue frame,
    moveSelectedLine value s e direction true = Changed newValue (Some frame)
    ∧ 1 ≤ k
    ∧ length (split nl newValue) = length (split nl value) + k
    ∧ take k (drop at_ (split nl newValue))
      = take k (drop (Z.to_nat i) (split nl value))
    ∧ take at_ (split nl newValue) ++ drop (at_ + k) (split nl newValue)
      = split nl value.
Proof.
  intros Hvalid.
  destruct (moveSelectedLine_valid value s e direction true Hvalid
              (copy_not_Returned _ _ _ _))
    as (i & j & cs & ce & ns & ne & li & lj & a & b & nls & Hi & Hj & Hij
        & _ & _ & Hls & Hle & _ & _ & Hbound & Hnls & Hwf & _ & _ & _ & _ & _
        & _ & Hrun).
  apply lookup_lt_Some in Hj as Hj'.
  destruct (newLinesOf_valid (split nl value) direction true i j)
    as (p & blk & r & Hblk & Hsplit & Hp & Hnew); [lia|done|].
  rewrite Hls, Hle. cbv zeta.
  replace (Z.to_nat (Z.of_nat j - Z.of_nat i + 1)) with (length blk) by lia.
  rewrite Nat2Z.id.
  eexists (join nl nls), _. split; [exact Hrun|].
  rewrite split_join by done. rewrite Hnls, Hnew, Hsplit. clear Hrun.
  split; [lia|]. split; [rewrite !length_app; lia|].
  rewrite <- Hp. destruct direction; simpl.
  - rewrite Nat2Z.id, !drop_app_length, !take_app_length.
    split; [done|].
    by rewrite (app_assoc p blk), drop_app_length' by (rewrite length_app; lia).
  - replace (Z.to_nat _) with (length (p ++ blk)) by (rewrite length_app; lia).
    rewrite drop_app_length, take_app_length.
    rewrite (app_assoc p blk (blk ++ r)), drop_app_length, take_app_length.
    split; [done|]. rewrite take_app_length.
    rewrite (app_assoc (p ++ blk) blk r), drop_app_length'
      by (rewrite !length_app; lia).
    by rewrite <- app_assoc.
Qed.

Lemma copy_growth_witness :
  ∃ newValue frame,
    moveSelectedLine (str "one" ++ nl :: str "two") 0 7 down true
    = Changed newValue (Some frame)
    ∧ 1 ≤ 2
    ∧ length (split nl newValue) = 2 + 2
    ∧ take 2 (drop 2 (split nl newValue)) = [str "one"; str "two"]
    ∧ take 2 (split nl newValue) ++ drop (2 + 2) (split nl newValue)
      = [str "one"; str "two"].
Proof.
  apply (copy_growth (str "one" ++ nl :: str "two") 0 7 down).
  unfold validSelection. simpl. lia.
Defined.

(** ** The remapped selection *)

(** C10. For a selection in order and inside the text, every move or copy
    that passes the boundary check reaches [setSelectionRange] with a start
    that is not after the end. *)
Theorem remapped_selection_ordered value s e direction shouldCopy :
  validSelection value s e →
  moveSelectedLine value s e direction shouldCopy ≠ Returned →
  ∃ newValue frame,
    moveSelectedLine value s e direction shouldCopy
    = Changed newValue (Some frame)
    ∧ (finalSelectionStart frame ≤ finalSelectionEnd frame)%Z.
Proof.
  intros Hvalid Hrun.
  destruct (moveSelectedLine_valid value s e direction shouldCopy Hvalid Hrun)
    as (i & j & cs & ce & ns & ne & li & lj & a & b & nls & _ & _ & Hij
        & _ & _ & _ & _ & _ & _ & _ & _ & _ & _ & _ & Ha & Hb & Hnse & Hiff
        & ->).
  eexists _, _. split; [done|]. simpl.
  destruct (decide (i = j)) as [|Hne]; [done|].
  pose proof (offsetAt_mono nls ns ne a Ha). lia.
Qed.

Lemma remapped_selection_ordered_witness :
  ∃ newValue frame,
    moveSelectedLine (str "a" ++ nl :: str "bb" ++ nl :: str "ccc") 0 3 down false
    = Changed newValue (Some frame)
    ∧ (finalSelectionStart frame ≤ finalSelectionEnd frame)%Z.
Proof.
  apply (remapped_selection_ordered
           (str "a" ++ nl :: str "bb" ++ nl :: str "ccc") 0 3 down false).
  - unfold validSelection. simpl. lia.
  - vm_compute. discriminate.
Defined.

(** C7. For a selection in order and inside the text, after every move or
    copy that passes the boundary check the remapped start lies on the
    remapped start line of the new text, at a column between 0 and the
    length of that line, and the remapped end lies on the remapped end line,
    at a column between 0 and the length of that line: neither offset points
    past the end of its line. *)
Theorem clamp_safety value s e direction shouldCopy :
  validSelection value s e →
  moveSelectedLine value s e direction shouldCopy ≠ Returned →
  ∃ newValue frame startLine endLine,
    moveSelectedLine value s e direction shouldCopy
    = Changed newValue (Some frame)
    ∧ lineNumberOf newValue (finalSelectionStart frame) = newStartLine frame
    ∧ lineNumberOf newValue (finalSelectionEnd frame) = newEndLine frame
    ∧ index (split nl newValue) (newStartLine frame) = Some startLine
    ∧ index (split nl newValue) (newEndLine frame) = Some endLine
    ∧ (0 ≤ columnOf newValue (finalSelectionStart frame)
         ≤ Z.of_nat (length startLine))%Z
    ∧ (0 ≤ columnOf newValue (finalSelectionEnd frame)
         ≤ Z.of_nat (length endLine))%Z.
Proof.
  intros Hvalid Hrun.
  destruct (moveSelectedLine_valid value s e direction shouldCopy Hvalid Hrun)
    as (i & j & cs & ce & ns & ne & li & lj & a & b & nls & _ & _ & Hij
        & _ & _ & _ & _ & _ & _ & _ & _ & Hwf & _ & _ & Ha & Hb & Hnse & Hiff
        & ->).
  eexists (join nl nls), _, a, b. split; [done|]. simpl.
  assert (lineNumberOf (join nl nls)
            (Z.of_nat (offsetAt nls ns + Nat.min cs (length a))) = Z.of_nat ns)
    as Hstart by (apply (lineNumberOf_at nls ns a); [done..|lia]).
  assert (lineNumberOf (join nl nls)
            (Z.of_nat (offsetAt nls ne + Nat.min ce (length b))) = Z.of_nat ne)
    as Hend by (apply (lineNumberOf_at nls ne b); [done..|lia]).
  apply lookup_lt_Some in Ha as Ha'. apply lookup_lt_Some in Hb as Hb'.
  unfold columnOf. rewrite split_join, !index_nat by done.
  destruct (decide (i = j)) as [Heq|Hne].
  - assert (ne = ns) as -> by (symmetry; by apply Hiff). simplify_eq.
    rewrite Hstart, index_lineOffsetsOf by done. simpl.
    split_and!; try done; lia.
  - rewrite Hstart, Hend, !index_lineOffsetsOf by done. simpl.
    split_and!; try done; lia.
Qed.

Lemma clamp_safety_witness :
  ∃ newValue frame startLine endLine,
    moveSelectedLine (str "long line" ++ nl :: str "x") 8 8 down false
    = Changed newValue (Some frame)
    ∧ lineNumberOf newValue (finalSelectionStart frame) = newStartLine frame
    ∧ lineNumberOf newValue (finalSelectionEnd frame) = newEndLine frame
    ∧ index (split nl newValue) (newStartLine frame) = Some startLine
    ∧ index (split nl newValue) (newEndLine frame) = Some endLine
    ∧ (0 ≤ columnOf newValue (finalSelectionStart frame)
         ≤ Z.of_nat (length startLine))%Z
    ∧ (0 ≤ columnOf newValue (finalSelectionEnd frame)
         ≤ Z.of_nat (length endLine))%Z.
Proof.
  apply (clamp_safety (str "long line" ++ nl :: str "x") 8 8 down false).
  - unfold validSelection. simpl. lia.
  - vm_compute. discriminate.
Defined.

Lemma columnOf_at ls i l c :
  wfLines ls → ls !! i = Some l → c ≤ length l →
  columnOf (join nl ls) (Z.of_nat (offsetAt ls i + c)) = Z.of_nat c.
Proof.
  intros Hwf Hi Hc. unfold columnOf.
  rewrite (lineNumberOf_at ls i l c), split_join by done.
  rewrite index_lineOffsetsOf by by eapply lookup_lt_Some.
  simpl. lia.
Qed.

(** C5, as stated, fails: the range from 1 to 3 in ["hello"] copied down
    comes back as the caret at 7, column 1 of the new line, and not with its
    end at column 3. *)
Lemma single_line_range_collapses :
  ¬ endColumnKept (str "hello") 1 3 down true.
Proof.
  intros H.
  specialize (H (str "hello" ++ nl :: str "hello") (mkFrame 7 7 1 1 2)
                (str "hello") eq_refl eq_refl).
  vm_compute in H. discriminate.
Qed.

(** C5, amended. For a selection inside one line, caret or range, every
    move or copy that passes the boundary check sets a caret: the remapped
    start keeps the column of the start, clamped to the length of the line
    it lands on, and the remapped end equals the remapped start. *)
Theorem single_line_remap value s e direction shouldCopy :
  validSelection value s e →
  lineNumberOf value s = lineNumberOf value e →
  moveSelectedLine value s e direction shouldCopy ≠ Returned →
  ∃ newValue frame line,
    moveSelectedLine value s e direction shouldCopy
    = Changed newValue (Some frame)
    ∧ index (split nl newValue) (newStartLine frame) = Some line
    ∧ columnOf newValue (finalSelectionStart frame)
      = Z.min (columnOf value s) (Z.of_nat (length line))
    ∧ finalSelectionEnd frame = finalSelectionStart frame.
Proof.
  intros Hvalid Hline Hrun.
  destruct (moveSelectedLine_valid value s e direction shouldCopy Hvalid Hrun)
    as (i & j & cs & ce & ns & ne & li & lj & a & b & nls & Hi & _ & Hij
        & Hcs & _ & Hls & Hle & Hs & _ & _ & _ & Hwf & _ & _ & Ha & Hb & Hnse
        & Hiff & ->).
  assert (i = j) as <- by lia.
  eexists (join nl nls), _, a. split; [done|]. simpl.
  rewrite decide_True by done. rewrite split_join, index_nat by done.
  split_and!; [done| |done].
  rewrite (columnOf_at nls ns a) by (done || lia).
  replace (columnOf value s) with (Z.of_nat cs); [lia|].
  rewrite Hs at 1. rewrite <- (join_split value) at 1.
  by rewrite (columnOf_at (split nl value) i li cs (split_wf value)).
Qed.

Lemma single_line_remap_witness :
  ∃ newValue frame line,
    moveSelectedLine (str "hello") 1 3 down true
    = Changed newValue (Some frame)
    ∧ index (split nl newValue) (newStartLine frame) = Some line
    ∧ columnOf newValue (finalSelectionStart frame)
      = Z.min (columnOf (str "hello") 1) (Z.of_nat (length line))
    ∧ finalSelectionEnd frame = finalSelectionStart frame.
Proof.
  apply (single_line_remap (str "hello") 1 3 down true).
  - unfold validSelection. simpl. lia.
  - reflexivity.
  - vm_compute. discriminate.
Defined.

(** ** Round trips *)

Lemma round_trip_in_direction value s e direction :
  validSelection value s e →
  moveSelectedLine value s e direction false ≠ Returned →
  ∃ moved frame frame',
    moveSelectedLine value s e direction false = Changed moved (Some frame)
    ∧ moveSelectedLine moved (finalSelectionStart frame)
        (finalSelectionEnd frame) (opposite direction) false
      = Changed value (Some frame').
Proof.
  intros Hvalid Hrun.
  destruct (moveSelectedLine_valid value s e direction false Hvalid Hrun)
    as (i & j & cs & ce & ns & ne & li & lj & a & b & nls & Hi & Hj & Hij
        & Hcs & Hce & Hls & Hle & Hs & He & Hbound & Hnls & Hwf & Hns & Hne
        & Ha & Hb & Hnse & Hiff & ->).
  apply lookup_lt_Some in Hj as Hj'.
  apply lookup_lt_Some in Ha as Ha'. apply lookup_lt_Some in Hb as Hb'.
  eexists (join nl nls), _, _. split; [done|]. simpl.
  set (s1 := Z.of_nat (offsetAt nls ns + Nat.min cs (length a))).
  set (e1 := if decide (i = j) then s1
             else Z.of_nat (offsetAt nls ne + Nat.min ce (length b))).
  assert (lineNumberOf (join nl nls) s1 = Z.of_nat ns) as Hs1
    by (apply (lineNumberOf_at nls ns a); [done..|lia]).
  assert (lineNumberOf (join nl nls) e1 = Z.of_nat ne) as He1.
  { unfold e1. destruct (decide (i = j)) as [Heq|_].
    - apply Hiff in Heq. by rewrite <- Heq.
    - apply (lineNumberOf_at nls ne b); [done..|lia]. }
  assert (newLinesOf nls (opposite direction) false (Z.of_nat ns) (Z.of_nat ne)
          = split nl value
          ∧ atBoundary (opposite direction) false (Z.of_nat ns) (Z.of_nat ne) nls
            = false
          ∧ newStartLineOf (opposite direction) false (Z.of_nat ns) = Z.of_nat i
          ∧ newEndLineOf (opposite direction) false (Z.of_nat ne) = Z.of_nat j)
    as (Hback & Hbound' & Hns' & Hne').
  { destruct (newLinesOf_valid (split nl value) direction false i j)
      as (p & blk & r & Hblk & H); [lia|done|].
    assert (blk ≠ []) as Hnil by (intros ->; simpl in Hblk; lia).
    unfold atBoundary, newStartLineOf, newEndLineOf in *.
    destruct direction; destruct H as (y & Hsplit & Hp & Hnew);
      rewrite <- Hnls in Hnew; rewrite Hnew, Hsplit; simpl in *.
    - split_and!; [|rewrite !length_app; simpl|..];
        [|destruct (Z.eqb_spec (Z.of_nat ne)
                      (Z.of_nat (length p + (length blk + S (length r))) - 1));
          [lia|done]|lia|lia].
      apply newLinesOf_move_down; [done|lia|lia].
    - split_and!; [|destruct (Z.eqb_spec (Z.of_nat ns) 0); [lia|done]|lia|lia].
      replace (Z.of_nat ns) with (Z.of_nat (length p) + 1)%Z by lia.
      replace (Z.of_nat ne)
        with (Z.of_nat (length p + length blk) - 1 + 1)%Z by lia.
      by apply newLinesOf_move_up. }
  rewrite (moveSelectedLine_at (join nl nls) s1 e1 (opposite direction) false
             ns ne); rewrite ?split_join by done; try done.
  rewrite Hbound', Hback, join_split.
  by rewrite (frameOf_at (split nl value) (opposite direction) false _ _ _ _
                i j li lj) by done.
Qed.

(** C1. For a selection in order and inside the text that spans one line or
    more: when its first line is not line 0, moving it up and then moving
    down, in the text returned and with the remapped selection, gives back
    the text before; when its last line is not the last line of the text,
    moving it down and then up does. *)
Theorem move_round_trip value s e :
  validSelection value s e →
  (lineNumberOf value s ≠ 0%Z →
   ∃ moved frame frame',
     moveSelectedLine value s e up false = Changed moved (Some frame)
     ∧ moveSelectedLine moved (finalSelectionStart frame)
         (finalSelectionEnd frame) down false
       = Changed value (Some frame'))
  ∧ (lineNumberOf value e ≠ (Z.of_nat (length (split nl value)) - 1)%Z →
     ∃ moved frame frame',
       moveSelectedLine value s e down false = Changed moved (Some frame)
       ∧ moveSelectedLine moved (finalSelectionStart frame)
           (finalSelectionEnd frame) up false
         = Changed value (Some frame')).
Proof.
  intros Hvalid. split; intros Hline.
  - apply (round_trip_in_direction value s e up Hvalid).
    rewrite moveSelectedLine_Returned. unfold atBoundary. simpl.
    destruct (Z.eqb_spec (lineNumberOf value s) 0); [done|].
    by rewrite orb_false_r.
  - apply (round_trip_in_direction value s e down Hvalid).
    rewrite moveSelectedLine_Returned. unfold atBoundary. simpl.
    by destruct (Z.eqb_spec (lineNumberOf value e)
                   (Z.of_nat (length (split nl value)) - 1)).
Qed.

Lemma move_round_trip_witness :
  (∃ moved frame frame',
     moveSelectedLine (str "a" ++ nl :: str "bb" ++ nl :: str "ccc") 3 7
       up false = Changed moved (Some frame)
     ∧ moveSelectedLine moved (finalSelectionStart frame)
         (finalSelectionEnd frame) down false
       = Changed (str "a" ++ nl :: str "bb" ++ nl :: str "ccc") (Some frame'))
  ∧ (∃ moved frame frame',
       moveSelectedLine (str "a" ++ nl :: str "bb" ++ nl :: str "ccc") 0 3
         down false = Changed moved (Some frame)
       ∧ moveSelectedLine moved (finalSelectionStart frame)
           (finalSelectionEnd frame) up false
         = Changed (str "a" ++ nl :: str "bb" ++ nl :: str "ccc") (Some frame')).
Proof.
  assert (validSelection (str "a" ++ nl :: str "bb" ++ nl :: str "ccc") 3 7)
    as H37 by (unfold validSelection; simpl; lia).
  assert (validSelection (str "a" ++ nl :: str "bb" ++ nl :: str "ccc") 0 3)
    as H03 by (unfold validSelection; simpl; lia).
  split.
  - apply (proj1 (move_round_trip _ 3 7 H37)). vm_compute. discriminate.
  - apply (proj2 (move_round_trip _ 0 3 H03)). vm_compute. discriminate.
Defined.

(** ** The order of the two offsets *)






(** ** Scenario B *)

(** C4. On the text of the lines one and two with the selection from 0 to
    7, a copy down returns the four lines one, two, one, two, and the
    selection from 4 to 11: it starts on line 1 and ends on line 2, the
    second line of the selected block and the first line of its copy. *)
Theorem scenario_B_code :
  moveSelectedLine (str "one" ++ nl :: str "two") 0 7 down true
  = Changed (str "one" ++ nl :: str "two" ++ nl :: str "one" ++ nl :: str "two")
      (Some {| finalSelectionStart := 4; finalSelectionEnd := 11;
               newStartLine := 1; newEndLine := 2; lineCount := 4 |}).
Proof. reflexivity. Qed.

(** ** The scroll policy *)

Section ScrollPolicy.
Context {num : Type} `{JSNumber num}.
Hypothesis mul_comm : ∀ x y : num, mul x y = mul y x.

(** C8. With [lineHeight = contentHeight / lineCount], the margin
    [buffer = 2 * lineHeight] and the remapped start line as target, the
    scroll target of the callback is [max(0, targetLine * lineHeight -
    buffer)] when the direction is up and that difference is below
    [scrollTop]; it is [min(contentHeight - viewportHeight, targetLine *
    lineHeight - viewportHeight + lineHeight + buffer)] when the direction
    is down and [targetLine * lineHeight + lineHeight + buffer] is above
    [scrollTop + viewportHeight]; in every other case it is [scrollTop]. *)
Theorem scroll_policy direction scrollTop viewportHeight contentHeight frame :
  let lineHeight := div contentHeight (ofInt (Z.of_nat (lineCount frame))) in
  let buffer := mul (ofInt 2) lineHeight in
  let targetPosition := mul (ofInt (newStartLine frame)) lineHeight in
  let scrollTop' :=
    scrollTopAfter direction scrollTop contentHeight viewportHeight frame in
  let above := lt (sub targetPosition buffer) scrollTop in
  let below :=
    gt (add (add targetPosition lineHeight) buffer)
       (add scrollTop viewportHeight) in
  (direction = up → above = true →
   scrollTop' = mathMax (ofInt 0) (sub targetPosition buffer))
  ∧ (direction = down → below = true →
     scrollTop'
     = mathMin (sub contentHeight viewportHeight)
         (add (add (sub targetPosition viewportHeight) lineHeight) buffer))
  ∧ (¬ (direction = up ∧ above = true) →
     ¬ (direction = down ∧ below = true) →
     scrollTop' = scrollTop).
Proof using mul_comm.
  cbv zeta. unfold scrollTopAfter, newScrollTopOf.
  rewrite !(mul_comm (ofInt _)).
  split_and!.
  - intros -> ->. done.
  - intros -> ->. done.
  - intros Hup Hdown. destruct direction; simpl.
    + destruct (lt _ _); [|done]. by destruct Hup.
    + destruct (gt _ _); [|done]. by destruct Hdown.
Qed.
End ScrollPolicy.

Lemma scroll_policy_witness :
  @scrollTopAfter Qc exactNumber up (Qc_of_Z 100) (Qc_of_Z 400) (Qc_of_Z 100)
    (mkFrame 0 0 3 3 20)
  = @mathMax Qc exactNumber (@ofInt Qc exactNumber 0)
      (@sub Qc exactNumber
         (@mul Qc exactNumber (@ofInt Qc exactNumber 3)
            (@div Qc exactNumber (Qc_of_Z 400) (@ofInt Qc exactNumber 20)))
         (@mul Qc exactNumber (@ofInt Qc exactNumber 2)
            (@div Qc exactNumber (Qc_of_Z 400) (@ofInt Qc exactNumber 20)))).
Proof.
  apply (proj1 (@scroll_policy Qc exactNumber Qcmult_comm up (Qc_of_Z 100)
                  (Qc_of_Z 100) (Qc_of_Z 400) (mkFrame 0 0 3 3 20)));
    [reflexivity|].
  vm_compute. reflexivity.
Defined.

(** ** The text after a move and after a copy *)

(** X1. A move exchanges the selected block with the one line next to it in
    the direction of the move, and leaves every other line where it was. *)
Theorem move_exchanges_neighbour value s e direction :
  validSelection value s e →
  moveSelectedLine value s e direction false ≠ Returned →
  ∃ before block neighbour after frame,
    length block
    = Z.to_nat (lineNumberOf value e - lineNumberOf value s + 1)
    ∧ match direction with
      | up =>
          split nl value = before ++ neighbour :: block ++ after
          ∧ (Z.of_nat (length before) + 1)%Z = lineNumberOf value s
          ∧ moveSelectedLine value s e up false
            = Changed (join nl (before ++ block ++ neighbour :: after))
                (Some frame)
      | down =>
          split nl value = before ++ block ++ neighbour :: after
          ∧ Z.of_nat (length before) = lineNumberOf value s
          ∧ moveSelectedLine value s e down false
            = Changed (join nl (before ++ neighbour :: block ++ after))
                (Some frame)
      end.
Proof.
  intros Hvalid Hrun.
  destruct (moveSelectedLine_valid value s e direction false Hvalid Hrun)
    as (i & j & cs & ce & ns & ne & li & lj & a & b & nls & Hi & Hj & Hij
        & _ & _ & Hls & Hle & _ & _ & Hbound & Hnls & _ & _ & _ & _ & _ & _
        & _ & Hout).
  apply lookup_lt_Some in Hj as Hj'.
  destruct (newLinesOf_valid (split nl value) direction false i j)
    as (p & blk & r & Hblk & H); [lia|done|].
  rewrite Hls, Hle.
  destruct direction; destruct H as (y & Hsplit & Hp & Hnew);
    eexists p, blk, y, r, _; (split; [lia|]);
    (split; [done|]); (split; [lia|]);
    rewrite Hout, Hnls, Hnew; reflexivity.
Qed.

Lemma move_exchanges_neighbour_witness :
  ∃ before block neighbour after frame,
    length block = 2
    ∧ split nl (str "a" ++ nl :: str "bb" ++ nl :: str "ccc")
      = before ++ block ++ neighbour :: after
    ∧ Z.of_nat (length before) = 0%Z
    ∧ moveSelectedLine (str "a" ++ nl :: str "bb" ++ nl :: str "ccc") 0 3
        down false
      = Changed (join nl (before ++ neighbour :: block ++ after)) (Some frame).
Proof.
  apply (move_exchanges_neighbour
           (str "a" ++ nl :: str "bb" ++ nl :: str "ccc") 0 3 down).
  - unfold validSelection. simpl. lia.
  - vm_compute. discriminate.
Defined.

(** X2. A copy up and a copy down of the same selection hand the same text
    to [onChange]: the selected block twice in a row, between the lines
    before it and the lines after it. The two differ in the selection
    only. *)
Theorem copy_same_text value s e :
  validSelection value s e →
  ∃ before block after,
    split nl value = before ++ block ++ after
    ∧ Z.of_nat (length before) = lineNumberOf value s
    ∧ length block
      = Z.to_nat (lineNumberOf value e - lineNumberOf value s + 1)
    ∧ newValueOf (moveSelectedLine value s e up true)
      = Some (join nl (before ++ block ++ block ++ after))
    ∧ newValueOf (moveSelectedLine value s e down true)
      = Some (join nl (before ++ block ++ block ++ after)).
Proof.
  intros Hvalid.
  destruct (selection_lines value s e Hvalid)
    as (i & j & li & lj & cs & ce & Hi & Hj & _ & _ & Hls & Hle & _ & _ & Hij).
  apply lookup_lt_Some in Hi as Hi'. apply lookup_lt_Some in Hj as Hj'.
  destruct (cut_block (split nl value) i j) as (p & blk & r & Hsplit & Hp & Hblk);
    [lia|].
  assert (blk ≠ []) as Hnil by (intros ->; simpl in Hblk; lia).
  exists p, blk, r. rewrite Hls, Hle. split_and!; [done|lia|lia|..].
  - rewrite (moveSelectedLine_at value s e up true i j) by done.
    rewrite Hsplit, (newLinesOf_copy p blk r) by (done || lia). done.
  - rewrite (moveSelectedLine_at value s e down true i j) by done.
    rewrite Hsplit, (newLinesOf_copy p blk r) by (done || lia). done.
Qed.

Lemma copy_same_text_witness :
  ∃ before block after,
    split nl (str "one" ++ nl :: str "two") = before ++ block ++ after
    ∧ Z.of_nat (length before) = 0%Z
    ∧ length block = 2
    ∧ newValueOf (moveSelectedLine (str "one" ++ nl :: str "two") 0 7 up true)
      = Some (join nl (before ++ block ++ block ++ after))
    ∧ newValueOf (moveSelectedLine (str "one" ++ nl :: str "two") 0 7 down true)
      = Some (join nl (before ++ block ++ block ++ after)).
Proof.
  apply (copy_same_text (str "one" ++ nl :: str "two") 0 7).
  unfold validSelection. simpl. lia.
Defined.

(** ** Where the selection lands *)

Lemma lookup_block {A} (p b r : list A) t :
  t < length b → (p ++ b ++ r) !! (length p + t) = b !! t.
Proof.
  intros Ht. rewrite lookup_app_r by lia.
  replace (length p + t - length p) with t by lia.
  by rewrite lookup_app_l.
Qed.

Lemma lookup_block_after {A} (p : list A) y b r t :
  t < length b → (p ++ y :: b ++ r) !! (length p + 1 + t) = b !! t.
Proof.
  intros Ht. rewrite (cons_middle y p (b ++ r)), app_assoc.
  replace (length p + 1) with (length (p ++ [y]))
    by (rewrite length_app; simpl; lia).
  by apply lookup_block.
Qed.

Lemma offsetAt_app p r i :
  i ≤ length p → offsetAt (p ++ r) i = offsetAt p i.
Proof.
  revert i. induction p as [|l p IH]; intros [|i] Hi; simpl in *; try lia.
  rewrite IH by lia. done.
Qed.

Lemma columnOf_valid value s i li cs :
  split nl value !! i = Some li → cs ≤ length li →
  s = Z.of_nat (offsetAt (split nl value) i + cs) →
  columnOf value s = Z.of_nat cs.
Proof.
  intros Hi Hcs ->.
  pose proof (columnOf_at (split nl value) i li cs (split_wf value) Hi Hcs) as H.
  by rewrite join_split in H.
Qed.

(** X3. After a move the selection is on the same lines of text as before,
    now one line up or down, and at the same columns: the line under the
    remapped start is the line that was under the start, the column of the
    remapped start is the column of the start, and likewise for the end of a
    selection of several lines. *)
Theorem move_keeps_selection value s e direction :
  validSelection value s e →
  moveSelectedLine value s e direction false ≠ Returned →
  ∃ newValue frame,
    moveSelectedLine value s e direction false = Changed newValue (Some frame)
    ∧ index (split nl newValue) (newStartLine frame)
      = index (split nl value) (lineNumberOf value s)
    ∧ index (split nl newValue) (newEndLine frame)
      = index (split nl value) (lineNumberOf value e)
    ∧ columnOf newValue (finalSelectionStart frame) = columnOf value s
    ∧ (lineNumberOf value s ≠ lineNumberOf value e →
       columnOf newValue (finalSelectionEnd frame) = columnOf value e).
Proof.
  intros Hvalid Hrun.
  destruct (moveSelectedLine_valid value s e direction false Hvalid Hrun)
    as (i & j & cs & ce & ns & ne & li & lj & a & b & nls & Hi & Hj & Hij
        & Hcs & Hce & Hls & Hle & Hs & He & Hbound & Hnls & Hwf & Hns & Hne
        & Ha & Hb & Hnse & Hiff & ->).
  apply lookup_lt_Some in Hj as Hj'.
  assert (a = li ∧ b = lj) as [-> ->].
  { destruct (newLinesOf_valid (split nl value) direction false i j)
      as (p & blk & r & Hblk & H); [lia|done|].
    unfold newStartLineOf, newEndLineOf in Hns, Hne.
    destruct direction; destruct H as (y & Hsplit & Hp & Hnew);
      rewrite <- Hnls in Hnew; simpl in Hns, Hne;
      rewrite Hsplit in Hi, Hj; rewrite Hnew in Ha, Hb.
    - replace i with (length p + 1 + 0) in Hi by lia.
      replace j with (length p + 1 + (length blk - 1)) in Hj by lia.
      rewrite lookup_block_after in Hi, Hj by lia.
      replace ns with (length p + 0) in Ha by lia.
      replace ne with (length p + (length blk - 1)) in Hb by lia.
      rewrite lookup_block in Ha, Hb by lia. by simplify_eq.
    - replace i with (length p + 0) in Hi by lia.
      replace j with (length p + (length blk - 1)) in Hj by lia.
      rewrite lookup_block in Hi, Hj by lia.
      replace ns with (length p + 1 + 0) in Ha by lia.
      replace ne with (length p + 1 + (length blk - 1)) in Hb by lia.
      rewrite lookup_block_after in Ha, Hb by lia. by simplify_eq. }
  eexists (join nl nls), _. split; [done|]. simpl.
  rewrite split_join, Hls, Hle, !index_nat, Ha, Hb, Hi, Hj by done.
  rewrite (columnOf_valid value s i li cs), (columnOf_valid value e j lj ce)
    by done.
  rewrite (columnOf_at nls ns li) by (done || lia).
  split_and!; [done..|lia|].
  intros Hne'. destruct (decide (i = j)) as [->|_]; [done|].
  rewrite (columnOf_at nls ne lj) by (done || lia). lia.
Qed.

Lemma move_keeps_selection_witness :
  ∃ newValue frame,
    moveSelectedLine (str "a" ++ nl :: str "bb" ++ nl :: str "ccc") 3 7
      up false = Changed newValue (Some frame)
    ∧ index (split nl newValue) (newStartLine frame)
      = index (split nl (str "a" ++ nl :: str "bb" ++ nl :: str "ccc"))
          (lineNumberOf (str "a" ++ nl :: str "bb" ++ nl :: str "ccc") 3)
    ∧ index (split nl newValue) (newEndLine frame)
      = index (split nl (str "a" ++ nl :: str "bb" ++ nl :: str "ccc"))
          (lineNumberOf (str "a" ++ nl :: str "bb" ++ nl :: str "ccc") 7)
    ∧ columnOf newValue (finalSelectionStart frame)
      = columnOf (str "a" ++ nl :: str "bb" ++ nl :: str "ccc") 3
    ∧ (lineNumberOf (str "a" ++ nl :: str "bb" ++ nl :: str "ccc") 3
       ≠ lineNumberOf (str "a" ++ nl :: str "bb" ++ nl :: str "ccc") 7 →
       columnOf newValue (finalSelectionEnd frame)
       = columnOf (str "a" ++ nl :: str "bb" ++ nl :: str "ccc") 7).
Proof.
  apply (move_keeps_selection
           (str "a" ++ nl :: str "bb" ++ nl :: str "ccc") 3 7 up).
  - unfold validSelection. simpl. lia.
  - vm_compute. discriminate.
Defined.

(** X4. A copy up leaves the selection at the offsets it had: the start
    stays, and so does the end of a selection of several lines, while a
    selection inside one line becomes the caret at its start. The copy goes
    in below the selection as far as the offsets are concerned. *)
Theorem copy_up_keeps_offsets value s e :
  validSelection value s e →
  ∃ newValue frame,
    moveSelectedLine value s e up true = Changed newValue (Some frame)
    ∧ finalSelectionStart frame = s
    ∧ finalSelectionEnd frame
      = (if bool_decide (lineNumberOf value s = lineNumberOf value e)
         then s else e).
Proof.
  intros Hvalid.
  destruct (moveSelectedLine_valid value s e up true Hvalid
              (copy_not_Returned _ _ _ _))
    as (i & j & cs & ce & ns & ne & li & lj & a & b & nls & Hi & Hj & Hij
        & Hcs & Hce & Hls & Hle & Hs & He & Hbound & Hnls & Hwf & Hns & Hne
        & Ha & Hb & Hnse & Hiff & ->).
  apply lookup_lt_Some in Hj as Hj'.
  destruct (newLinesOf_valid (split nl value) up true i j)
    as (p & blk & r & Hblk & Hsplit & Hp & Hnew); [lia|done|].
  rewrite <- Hnls in Hnew. unfold newStartLineOf, newEndLineOf in *.
  simpl in Hns, Hne. assert (ns = i) as -> by lia. assert (ne = j) as -> by lia.
  assert (a = li ∧ b = lj
          ∧ offsetAt nls i = offsetAt (split nl value) i
          ∧ offsetAt nls j = offsetAt (split nl value) j)
    as (-> & -> & Hoi & Hoj).
  { rewrite Hsplit in Hi, Hj |- *. rewrite Hnew in Ha, Hb |- *.
    replace i with (length p + 0) in Hi, Ha by lia.
    replace j with (length p + (length blk - 1)) in Hj, Hb by lia.
    rewrite lookup_block in Hi, Hj, Ha, Hb by lia.
    split_and!; [by simplify_eq..| |].
    - by rewrite !offsetAt_app by lia.
    - rewrite (app_assoc p blk (blk ++ r)), (app_assoc p blk r).
      by rewrite (offsetAt_app (p ++ blk) (blk ++ r)),
           (offsetAt_app (p ++ blk) r) by (rewrite length_app; lia). }
  eexists (join nl nls), _. split; [done|]. simpl.
  rewrite Hls, Hle. split; [lia|].
  destruct (decide (i = j)) as [->|Hne'].
  - rewrite bool_decide_true by done. lia.
  - rewrite bool_decide_false by lia. lia.
Qed.

Lemma copy_up_keeps_offsets_witness :
  ∃ newValue frame,
    moveSelectedLine (str "one" ++ nl :: str "two") 1 6 up true
    = Changed newValue (Some frame)
    ∧ finalSelectionStart frame = 1%Z
    ∧ finalSelectionEnd frame
      = (if bool_decide
              (lineNumberOf (str "one" ++ nl :: str "two") 1
               = lineNumberOf (str "one" ++ nl :: str "two") 6)
         then 1%Z else 6%Z).
Proof.
  apply (copy_up_keeps_offsets (str "one" ++ nl :: str "two") 1 6).
  unfold validSelection. simpl. lia.
Defined.

(** X5. A copy down of a selection inside one line puts the caret on the
    inserted copy, at the column of the start: the line below, which holds
    the same text, one line length and one separator further on. *)
Theorem copy_down_one_line value s e line :
  validSelection value s e →
  lineNumberOf value s = lineNumberOf value e →
  index (split nl value) (lineNumberOf value s) = Some line →
  ∃ newValue frame,
    moveSelectedLine value s e down true = Changed newValue (Some frame)
    ∧ newStartLine frame = (lineNumberOf value s + 1)%Z
    ∧ index (split nl newValue) (newStartLine frame) = Some line
    ∧ finalSelectionStart frame = (s + Z.of_nat (length line) + 1)%Z
    ∧ finalSelectionEnd frame = finalSelectionStart frame.
Proof.
  intros Hvalid Hline Hl.
  destruct (moveSelectedLine_valid value s e down true Hvalid
              (copy_not_Returned _ _ _ _))
    as (i & j & cs & ce & ns & ne & li & lj & a & b & nls & Hi & Hj & Hij
        & Hcs & Hce & Hls & Hle & Hs & He & Hbound & Hnls & Hwf & Hns & Hne
        & Ha & Hb & Hnse & Hiff & ->).
  assert (i = j) as <- by lia.
  rewrite Hls, index_nat, Hi in Hl.
  assert (li = line) as -> by congruence. clear Hl.
  apply lookup_lt_Some in Hi as Hi'.
  destruct (newLinesOf_valid (split nl value) down true i i)
    as (p & blk & r & Hblk & Hsplit & Hp & Hnew); [lia|done|].
  rewrite <- Hnls in Hnew. unfold newStartLineOf in Hns. simpl in Hns.
  assert (ns = i + 1) as -> by lia.
  destruct blk as [|x [|??]]; simpl in Hblk; try lia.
  assert (x = line) as ->.
  { rewrite Hsplit in Hi. replace i with (length p + 0) in Hi by lia.
    rewrite (lookup_block p [x] r) in Hi by (simpl; lia).
    simpl in Hi. congruence. }
  assert (a = line) as ->.
  { rewrite Hnew in Ha. replace (i + 1) with (length (p ++ [line]) + 0) in Ha
      by (rewrite length_app; simpl; lia).
    rewrite (app_assoc p [line]), (lookup_block (p ++ [line]) [line] r) in Ha
      by (simpl; lia).
    simpl in Ha. congruence. }
  assert (offsetAt nls (i + 1)
          = offsetAt (split nl value) i + length line + 1) as Hoff.
  { rewrite Nat.add_1_r, (offsetAt_S nls i line).
    - rewrite Hnew, Hsplit, !offsetAt_app by lia. done.
    - rewrite Hnew. replace i with (length p + 0) by lia.
      by rewrite (lookup_block p [line] ([line] ++ r)) by (simpl; lia). }
  eexists (join nl nls), _. split; [done|]. simpl.
  rewrite decide_True by done. rewrite split_join, index_nat, Ha by done.
  split_and!; [lia|done|lia|done].
Qed.

Lemma copy_down_one_line_witness :
  ∃ newValue frame,
    moveSelectedLine (str "hello") 1 3 down true = Changed newValue (Some frame)
    ∧ newStartLine frame = (lineNumberOf (str "hello") 1 + 1)%Z
    ∧ index (split nl newValue) (newStartLine frame) = Some (str "hello")
    ∧ finalSelectionStart frame = (1 + Z.of_nat (length (str "hello")) + 1)%Z
    ∧ finalSelectionEnd frame = finalSelectionStart frame.
Proof.
  apply (copy_down_one_line (str "hello") 1 3 (str "hello")).
  - unfold validSelection. simpl. lia.
  - reflexivity.
  - reflexivity.
Defined.

(** ** What a move never changes *)

Lemma join_flat ls :
  ls ≠ [] → nl :: join nl ls = flat_map (fun l => nl :: l) ls.
Proof.
  induction ls as [|l ls IH]; intros Hne; [done|].
  destruct ls as [|l' ls].
  - simpl. by rewrite app_nil_r.
  - rewrite join_cons by done. rewrite IH by done. done.
Qed.

Lemma Permutation_join ls ls' :
  Permutation ls ls' → ls ≠ [] →
  Permutation (join nl ls) (join nl ls').
Proof.
  intros Hperm Hne.
  assert (ls' ≠ []) as Hne'.
  { intros ->. by apply Permutation_nil_r in Hperm. }
  apply (Permutation_cons_inv (a := nl)).
  rewrite !join_flat by done. by apply Permutation_flat_map.
Qed.

Lemma moved_characters value s e direction newValue frame :
  moveSelectedLine value s e direction false = Changed newValue frame →
  Permutation value newValue.
Proof.
  intros Hrun.
  destruct (lineNumberOf_resolve value s) as (i & li & _ & Hi & _ & Hls & _).
  destruct (lineNumberOf_resolve value e) as (j & lj & _ & Hj & _ & Hle & _).
  apply lookup_lt_Some in Hi. apply lookup_lt_Some in Hj.
  rewrite (moveSelectedLine_at value s e direction false i j) in Hrun by done.
  destruct (atBoundary _ _ _ _ _) eqn:Hbound; [done|]. simplify_eq.
  pose proof (newLinesOf_move_Permutation _ direction i j Hi Hj Hbound) as Hperm.
  apply Permutation_join in Hperm; [|apply split_nonempty].
  by rewrite join_split in Hperm.
Qed.

(** X6. A move hands to [onChange] a text made of the same characters, each
    as often as before, and of the same length: for any pair of offsets, in
    order or not, a move neither adds a character nor drops one. *)
Theorem move_preserves_characters value s e direction newValue frame :
  moveSelectedLine value s e direction false = Changed newValue frame →
  Permutation value newValue ∧ length newValue = length value.
Proof.
  intros Hrun. pose proof (moved_characters _ _ _ _ _ _ Hrun) as Hperm.
  split; [done|]. symmetry. by apply Permutation_length.
Qed.

Lemma move_preserves_characters_witness :
  Permutation (str "a" ++ nl :: str "bb" ++ nl :: str "ccc")
              (str "ccc" ++ nl :: str "a" ++ nl :: str "bb")
  ∧ length (str "ccc" ++ nl :: str "a" ++ nl :: str "bb")
    = length (str "a" ++ nl :: str "bb" ++ nl :: str "ccc").
Proof.
  apply (move_preserves_characters
           (str "a" ++ nl :: str "bb" ++ nl :: str "ccc") 0 3 down
           (str "ccc" ++ nl :: str "a" ++ nl :: str "bb")
           (Some (mkFrame 4 7 1 2 3))).
  reflexivity.
Defined.

(** X7. A text without a line break, the empty text among them, is never
    moved: in either direction and for any pair of offsets the boundary
    check returns. *)
Theorem one_line_never_moves value s e direction :
  nl ∉ value → moveSelectedLine value s e direction false = Returned.
Proof.
  intros Hline. apply moveSelectedLine_Returned.
  destruct (lineNumberOf_resolve value s) as (i & li & _ & Hi & _ & -> & _).
  destruct (lineNumberOf_resolve value e) as (j & lj & _ & Hj & _ & -> & _).
  apply lookup_lt_Some in Hi. apply lookup_lt_Some in Hj.
  rewrite split_line in * by done. simpl in Hi, Hj.
  assert (i = 0) as -> by lia. assert (j = 0) as -> by lia.
  by destruct direction.
Qed.

Lemma one_line_never_moves_witness :
  moveSelectedLine (str "only line") 3 5 up false = Returned.
Proof.
  apply (one_line_never_moves (str "only line") 3 5 up).
  vm_compute. intros H. by repeat (apply elem_of_cons in H as [H|H]; [done|]);
    apply elem_of_nil in H.
Defined.

Lemma slice_nothing {A} (a : list A) (i j : nat) :
  j ≤ i → i ≤ length a → slice a (Z.of_nat i) (Z.of_nat j) = [].
Proof.
  intros Hji Hi. unfold slice. rewrite !relIndex_nat by lia.
  by replace (j - i) with 0 by lia.
Qed.

(** X8. For a start offset on a later line than the end offset, no
    operation changes the text: a move or a copy that passes the boundary
    check hands the text it was given to [onChange]. *)
Theorem reversed_lines_keep_text value s e direction shouldCopy :
  (lineNumberOf value e < lineNumberOf value s)%Z →
  moveSelectedLine value s e direction shouldCopy = Returned
  ∨ ∃ frame,
      moveSelectedLine value s e direction shouldCopy = Changed value frame.
Proof.
  intros Hrev.
  destruct (lineNumberOf_resolve value s) as (i & li & _ & Hi & _ & Hls & _).
  destruct (lineNumberOf_resolve value e) as (j & lj & _ & Hj & _ & Hle & _).
  apply lookup_lt_Some in Hi. apply lookup_lt_Some in Hj.
  rewrite (moveSelectedLine_at value s e direction shouldCopy i j) by done.
  destruct (atBoundary _ _ _ _ _) eqn:Hbound; [by left|]. right.
  assert (newLinesOf (split nl value) direction shouldCopy
            (Z.of_nat i) (Z.of_nat j) = split nl value) as ->.
  { unfold newLinesOf.
    destruct (Z.eqb_spec (Z.of_nat i) (Z.of_nat j)) as [?|_]; [lia|].
    cbn [negb]. destruct shouldCopy.
    - replace (Z.of_nat j + 1)%Z with (Z.of_nat (j + 1)) by lia.
      rewrite slice_nothing by lia. by rewrite splice_nothing by lia.
    - rewrite splice_nothing by lia. cbv beta iota.
      by rewrite splice_nothing by lia. }
  rewrite join_split. by eexists.
Qed.

Lemma reversed_lines_keep_text_witness :
  moveSelectedLine (str "a" ++ nl :: str "b" ++ nl :: str "c") 4 2 up true
  = Returned
  ∨ ∃ frame,
      moveSelectedLine (str "a" ++ nl :: str "b" ++ nl :: str "c") 4 2 up true
      = Changed (str "a" ++ nl :: str "b" ++ nl :: str "c") frame.
Proof.
  apply (reversed_lines_keep_text
           (str "a" ++ nl :: str "b" ++ nl :: str "c") 4 2 up true).
  vm_compute. reflexivity.
Defined.

(** ** The table of line starts and the text *)

Lemma line_at_offset ls i l :
  ls !! i = Some l →
  take (length l) (drop (offsetAt ls i) (join nl ls)) = l.
Proof.
  revert i. induction ls as [|l0 ls IH]; intros [|i] Hi; simplify_eq/=.
  - destruct ls; rewrite drop_0; [by rewrite take_ge|by rewrite take_app_length].
  - destruct ls as [|l1 ls]; [done|].
    rewrite drop_app_ge by lia.
    replace (length l0 + 1 + offsetAt (l1 :: ls) i - length l0)
      with (S (offsetAt (l1 :: ls) i)) by lia.
    rewrite skipn_cons. by apply IH.
Qed.

(** X9. The table of line starts has one entry per line, and the entry of a
    line is where that line is in the text: the substring from the entry,
    as long as the line, is the line, and both the entry and the end of the
    line are positions on that line. *)
Theorem lineOffsets_point_at_lines value i line :
  split nl value !! i = Some line →
  length (lineOffsetsOf (split nl value)) = length (split nl value)
  ∧ ∃ offset,
      index (lineOffsetsOf (split nl value)) (Z.of_nat i) = Some offset
      ∧ substring value offset (offset + Z.of_nat (length line)) = line
      ∧ lineNumberOf value offset = Z.of_nat i
      ∧ lineNumberOf value (offset + Z.of_nat (length line)) = Z.of_nat i.
Proof.
  intros Hi. split.
  { by rewrite lineOffsetsOf_spec, length_fmap, length_seq. }
  apply lookup_lt_Some in Hi as Hi'.
  exists (Z.of_nat (offsetAt (split nl value) i)).
  split; [by apply index_lineOffsetsOf|].
  pose proof (split_wf value) as Hwf.
  pose proof (offsetAt_le_length _ _ _ Hi) as Hle. rewrite join_split in Hle.
  split_and!.
  - unfold substring, clampIndex.
    replace (Z.to_nat (_ `min` _))
      with (offsetAt (split nl value) i) by lia.
    replace (Z.to_nat (_ `min` _))
      with (offsetAt (split nl value) i + length line) by lia.
    rewrite Nat.min_l, Nat.max_r by lia.
    replace (_ + _ - _) with (length line) by lia.
    pose proof (line_at_offset _ _ _ Hi) as H. by rewrite join_split in H.
  - pose proof (lineNumberOf_at _ i line 0 Hwf Hi ltac:(lia)) as H.
    by rewrite join_split, Nat.add_0_r in H.
  - pose proof (lineNumberOf_at _ i line (length line) Hwf Hi ltac:(lia)) as H.
    rewrite join_split in H. rewrite <- H. f_equal. lia.
Qed.

Lemma lineOffsets_point_at_lines_witness :
  length (lineOffsetsOf (split nl (str "a" ++ nl :: str "bb" ++ nl :: str "ccc")))
  = length (split nl (str "a" ++ nl :: str "bb" ++ nl :: str "ccc"))
  ∧ ∃ offset,
      index (lineOffsetsOf
               (split nl (str "a" ++ nl :: str "bb" ++ nl :: str "ccc")))
        (Z.of_nat 2) = Some offset
      ∧ substring (str "a" ++ nl :: str "bb" ++ nl :: str "ccc") offset
          (offset + Z.of_nat (length (str "ccc"))) = str "ccc"
      ∧ lineNumberOf (str "a" ++ nl :: str "bb" ++ nl :: str "ccc") offset
        = Z.of_nat 2
      ∧ lineNumberOf (str "a" ++ nl :: str "bb" ++ nl :: str "ccc")
          (offset + Z.of_nat (length (str "ccc"))) = Z.of_nat 2.
Proof.
  apply (lineOffsets_point_at_lines
           (str "a" ++ nl :: str "bb" ++ nl :: str "ccc") 2 (str "ccc")).
  reflexivity.
Defined.

(** X10. Positions resolve to lines in order and inside the line: for two
    offsets in order and inside the text, the line of the first is not
    after the line of the second, and each offset has a column between 0
    and the length of its line. *)
Theorem position_resolution value p q :
  validSelection value p q →
  (lineNumberOf value p ≤ lineNumberOf value q)%Z
  ∧ ∃ linep lineq,
      index (split nl value) (lineNumberOf value p) = Some linep
      ∧ index (split nl value) (lineNumberOf value q) = Some lineq
      ∧ (0 ≤ columnOf value p ≤ Z.of_nat (length linep))%Z
      ∧ (0 ≤ columnOf value q ≤ Z.of_nat (length lineq))%Z.
Proof.
  intros Hvalid.
  destruct (selection_lines value p q Hvalid)
    as (i & j & li & lj & cs & ce & Hi & Hj & Hcs & Hce & Hls & Hle & Hs & He
        & Hij).
  rewrite Hls, Hle. split; [lia|]. exists li, lj.
  rewrite !index_nat, (columnOf_valid value p i li cs),
    (columnOf_valid value q j lj ce) by done.
  repeat split; (done || lia).
Qed.

Lemma position_resolution_witness :
  (lineNumberOf (str "a" ++ nl :: str "bb") 1
   ≤ lineNumberOf (str "a" ++ nl :: str "bb") 2)%Z
  ∧ ∃ linep lineq,
      index (split nl (str "a" ++ nl :: str "bb"))
        (lineNumberOf (str "a" ++ nl :: str "bb") 1) = Some linep
      ∧ index (split nl (str "a" ++ nl :: str "bb"))
          (lineNumberOf (str "a" ++ nl :: str "bb") 2) = Some lineq
      ∧ (0 ≤ columnOf (str "a" ++ nl :: str "bb") 1
           ≤ Z.of_nat (length linep))%Z
      ∧ (0 ≤ columnOf (str "a" ++ nl :: str "bb") 2
           ≤ Z.of_nat (length lineq))%Z.
Proof.
  apply (position_resolution (str "a" ++ nl :: str "bb") 1 2).
  unfold validSelection. simpl. lia.
Defined.

(** ** The keyboard handler *)

Lemma trimStart_white s :
  Forall (fun c => isWhiteSpace c = true) (trimStart s)
  ↔ Forall (fun c => isWhiteSpace c = true) s.
Proof.
  induction s as [|c s IH]; [done|]. simpl.
  destruct (isWhiteSpace c) eqn:Hc; [|done].
  rewrite IH. split; [by constructor|by inversion 1].
Qed.

Lemma trimStart_nil s :
  trimStart s = [] ↔ Forall (fun c => isWhiteSpace c = true) s.
Proof.
  induction s as [|c s IH]; [done|]. simpl.
  destruct (isWhiteSpace c) eqn:Hc.
  - rewrite IH. split; [by constructor|by inversion 1].
  - split; [done|]. inversion 1. congruence.
Qed.

Lemma Forall_rev_iff {A} (P : A → Prop) (l : list A) :
  Forall P (rev l) ↔ Forall P l.
Proof.
  rewrite !List.Forall_forall.
  split; intros H x Hx; apply H; by apply in_rev in Hx.
Qed.

(** A text trims to the empty string exactly when it is white space
    throughout. *)
Lemma trim_nil s :
  trim s = [] ↔ Forall (fun c => isWhiteSpace c = true) s.
Proof.
  unfold trim, trimEnd. rewrite <- trimStart_white.
  rewrite <- (Forall_rev_iff _ (trimStart s)) at 1.
  rewrite <- trimStart_nil. split.
  - intros H. apply (f_equal (@rev ascii)) in H. by rewrite rev_involutive in H.
  - by intros ->.
Qed.

(** X11. The key policy of the line hook. The handler acts on an event
    exactly when the text holds a character that is not white space, the
    key is ArrowUp or ArrowDown, and Alt is held, or Meta on a Mac; it then
    prevents the default and moves up for ArrowUp and down for ArrowDown,
    copying when Shift is held. On every other event, and on every event
    over a blank text, it does nothing. *)
Theorem handleKeyDown_policy env value s e ev :
  let acts :=
    ¬ Forall (fun c => isWhiteSpace c = true) value
    ∧ (altKey ev = true ∨ (detectMacPlatform env = true ∧ metaKey ev = true))
    ∧ (key ev = str "ArrowUp" ∨ key ev = str "ArrowDown") in
  (acts →
   handleKeyDown env value s e ev
   = Prevented
       (moveSelectedLine value s e
          (if bool_decide (key ev = str "ArrowUp") then up else down)
          (shiftKey ev)))
  ∧ (¬ acts → handleKeyDown env value s e ev = Ignored).
Proof.
  cbv zeta. unfold handleKeyDown, keyIs. rewrite <- trim_nil. split.
  - intros (Hblank & Hmod & Hkey).
    rewrite bool_decide_false by done.
    assert (bool_decide (key ev = str "ArrowUp")
            || bool_decide (key ev = str "ArrowDown") = true) as ->.
    { destruct Hkey as [Hk|Hk]; rewrite Hk; by vm_compute. }
    destruct Hmod as [->|[-> ->]]; [|done].
    by destruct (detectMacPlatform env), (metaKey ev).
  - intros Hno. case_bool_decide as Hblank; [done|].
    destruct (bool_decide (key ev = str "ArrowUp")
              || bool_decide (key ev = str "ArrowDown")) eqn:Hkey.
    + apply orb_true_iff in Hkey.
      rewrite !bool_decide_eq_true in Hkey.
      destruct (detectMacPlatform env) eqn:Hmac, (altKey ev) eqn:Halt,
        (metaKey ev) eqn:Hmeta; simpl; try done; exfalso; apply Hno;
        tauto.
    + by rewrite !andb_false_r, Tauto.if_same.
Qed.

Lemma handleKeyDown_policy_witness :
  handleKeyDown None (str "a" ++ nl :: str "b") 2 2
    (mkKeyboardEvent (str "ArrowUp") true false true)
  = Prevented (moveSelectedLine (str "a" ++ nl :: str "b") 2 2 up true).
Proof.
  apply (proj1 (handleKeyDown_policy None (str "a" ++ nl :: str "b") 2 2
                  (mkKeyboardEvent (str "ArrowUp") true false true))).
  split_and!.
  - intros H. apply Forall_inv in H. vm_compute in H. discriminate.
  - by left.
  - by left.
Defined.

Lemma handleKeyDown_arrow env value s e direction meta :
  ¬ Forall (fun c => isWhiteSpace c = true) value →
  handleKeyDown env value s e
    (mkKeyboardEvent (arrowKey direction) true meta false)
  = Prevented (moveSelectedLine value s e direction false).
Proof.
  intros Hblank. rewrite <- trim_nil in Hblank.
  unfold handleKeyDown, keyIs. rewrite bool_decide_false by done. simpl.
  destruct direction, (detectMacPlatform env), meta; reflexivity.
Qed.

(** X12. Alt with an arrow and then Alt with the other arrow gives back the
    text: on a text that is not blank, for a selection in order that is not
    at the boundary in the direction of the first key, the handler moves the
    lines, and on the text returned and with the remapped selection the
    other key passes the blank check and moves them back. *)
Theorem key_round_trip env value s e direction meta meta' :
  ¬ Forall (fun c => isWhiteSpace c = true) value →
  validSelection value s e →
  moveSelectedLine value s e direction false ≠ Returned →
  ∃ moved frame frame',
    handleKeyDown env value s e
      (mkKeyboardEvent (arrowKey direction) true meta false)
    = Prevented (Changed moved (Some frame))
    ∧ handleKeyDown env moved (finalSelectionStart frame)
        (finalSelectionEnd frame)
        (mkKeyboardEvent (arrowKey (opposite direction)) true meta' false)
      = Prevented (Changed value (Some frame')).
Proof.
  intros Hblank Hvalid Hrun.
  destruct (round_trip_in_direction value s e direction Hvalid Hrun)
    as (moved & frame & frame' & Hgo & Hback).
  exists moved, frame, frame'. split.
  - by rewrite handleKeyDown_arrow, Hgo.
  - rewrite handleKeyDown_arrow, Hback; [done|].
    intros Hall. apply Hblank.
    pose proof (moved_characters _ _ _ _ _ _ Hgo) as Hperm.
    by rewrite Hperm.
Qed.

Lemma key_round_trip_witness :
  ∃ moved frame frame',
    handleKeyDown None (str "a" ++ nl :: str "bb") 2 3
      (mkKeyboardEvent (arrowKey up) true false false)
    = Prevented (Changed moved (Some frame))
    ∧ handleKeyDown None moved (finalSelectionStart frame)
        (finalSelectionEnd frame)
        (mkKeyboardEvent (arrowKey (opposite up)) true false false)
      = Prevented (Changed (str "a" ++ nl :: str "bb") (Some frame')).
Proof.
  apply (key_round_trip None (str "a" ++ nl :: str "bb") 2 3 up false false).
  - intros H. apply Forall_inv in H. vm_compute in H. discriminate.
  - unfold validSelection. simpl. lia.
  - vm_compute. discriminate.
Defined.

(** ** The platform check *)

Lemma startsWith_spec s t :
  startsWith s t = true ↔ ∃ post, s = t ++ post.
Proof.
  revert s. induction t as [|c t IH]; intros s; simpl.
  - split; [by exists s|done].
  - destruct s as [|d s].
    + split; [done|]. by intros [post ?].
    + rewrite andb_true_iff, IH. split.
      * intros [Hcd [post ->]]. apply Ascii.eqb_eq in Hcd as ->. by exists post.
      * intros [post Heq]. simplify_eq. split; [apply Ascii.eqb_refl|by exists post].
Qed.

Lemma includes_spec s t :
  includes s t = true ↔ ∃ pre post, s = pre ++ t ++ post.
Proof.
  induction s as [|d s IH]; simpl; rewrite orb_true_iff, startsWith_spec.
  - split.
    + intros [[post ->]|?]; [|done]. by exists [], post.
    + intros (pre & post & Heq). left.
      symmetry in Heq. apply app_eq_nil in Heq as [-> Heq]. by exists post.
  - rewrite IH. split.
    + intros [[post ->]|(pre & post & ->)]; [by exists [], post|].
      by exists (d :: pre), post.
    + intros ([|d' pre] & post & Heq); simpl in Heq.
      * left. by exists post.
      * right. simplify_eq. by exists pre, post.
Qed.

Lemma toLowerCaseChar_mac c :
  (toLowerCaseChar c = "m"%char ↔ c = "m"%char ∨ c = "M"%char)
  ∧ (toLowerCaseChar c = "a"%char ↔ c = "a"%char ∨ c = "A"%char)
  ∧ (toLowerCaseChar c = "c"%char ↔ c = "c"%char ∨ c = "C"%char).
Proof.
  split_and!; (split; [|by intros [->| ->]]);
    destruct c as [[] [] [] [] [] [] [] []]; vm_compute; intros H;
    (discriminate H || (left; reflexivity) || (right; reflexivity)).
Qed.

(** X13. Without [window] the platform is never a Mac. With
    [userAgentData] the user agent string is not read. Without it the
    platform is a Mac exactly when the user agent holds the letters m, a
    and c in a row, each in either case. *)
Theorem detectMacPlatform_cases :
  detectMacPlatform None = false
  ∧ (∀ data ua ua',
       detectMacPlatform (Some (mkNavigator (Some data) ua))
       = detectMacPlatform (Some (mkNavigator (Some data) ua')))
  ∧ (∀ ua,
       detectMacPlatform (Some (mkNavigator None ua)) = true
       ↔ ∃ pre m a c post,
           ua = pre ++ m :: a :: c :: post
           ∧ (m = "m"%char ∨ m = "M"%char)
           ∧ (a = "a"%char ∨ a = "A"%char)
           ∧ (c = "c"%char ∨ c = "C"%char)).
Proof.
  split_and!; [done..|]. intros ua. simpl. rewrite includes_spec. split.
  - intros (pre & post & Heq). unfold toLowerCase in Heq.
    change (str "mac") with ["m"%char; "a"%char; "c"%char] in Heq.
    apply map_eq_app in Heq as (pre' & rest & -> & _ & Hrest).
    destruct rest as [|m [|a [|c post']]]; simplify_eq/=.
    exists pre', m, a, c, post'. split; [done|].
    by split_and!; apply toLowerCaseChar_mac.
  - intros (pre & m & a & c & post & -> & Hm & Ha & Hc).
    apply toLowerCaseChar_mac in Hm, Ha, Hc.
    exists (toLowerCase pre), (toLowerCase post).
    unfold toLowerCase. rewrite map_app. simpl. by rewrite Hm, Ha, Hc.
Qed.

Lemma detectMacPlatform_cases_witness :
  detectMacPlatform (Some (mkNavigator None (str "Mozilla (MACINTOSH)"))) = true.
Proof.
  apply (proj2 (proj2 detectMacPlatform_cases)).
  exists (str "Mozilla ("), "M"%char, "A"%char, "C"%char, (str "INTOSH)").
  split; [reflexivity|]. split_and!; by right.
Defined.

(** ** The form *)

(** X14. A blank message is never submitted and a message is not submitted
    twice: a submit of a blank message only prevents the default; a submit
    of any other message shows one toast, with the message as typed, and
    clears the message; and a second submit right after shows no toast and
    sets nothing. *)
Theorem submit_once message :
  (Forall (fun c => isWhiteSpace c = true) message →
   handleSubmit message = [PreventDefault])
  ∧ (¬ Forall (fun c => isWhiteSpace c = true) message →
     toastsOf (handleSubmit message) = [(str "Form Submitted", message)]
     ∧ messageAfter message (handleSubmit message) = [])
  ∧ handleSubmit (messageAfter message (handleSubmit message))
    = [PreventDefault].
Proof.
  unfold handleSubmit. rewrite <- trim_nil.
  split_and!.
  - intros Hblank. by rewrite bool_decide_true.
  - intros Hblank. by rewrite bool_decide_false.
  - destruct (decide (trim message = [])) as [Hblank|Hblank].
    + rewrite (bool_decide_true (trim message = [])) by done.
      change (messageAfter message [PreventDefault]) with message.
      by rewrite (bool_decide_true (trim message = [])) by done.
    + by rewrite (bool_decide_false (trim message = [])) by done.
Qed.

Lemma submit_once_witness :
  handleSubmit (str "  ") = [PreventDefault]
  ∧ toastsOf (handleSubmit (str " hi ")) = [(str "Form Submitted", str " hi ")]
  ∧ messageAfter (str " hi ") (handleSubmit (str " hi ")) = [].
Proof.
  split.
  - apply (proj1 (submit_once (str "  "))).
    repeat constructor.
  - apply (proj1 (proj2 (submit_once (str " hi ")))).
    intros H. apply Forall_inv_tail, Forall_inv in H. vm_compute in H.
    discriminate.
Defined.

(** X15. No key event both moves lines and submits the form: when the line
    hook acts on an event, the handler of the form does nothing, and when
    the form handler does anything, the line hook has ignored the event.
    With Shift held the form handler does nothing at all. *)
Theorem move_never_submits env message s e ev :
  (fst (promptAreaOnKeyDown env message s e ev) ≠ Ignored →
   snd (promptAreaOnKeyDown env message s e ev) = [])
  ∧ (snd (promptAreaOnKeyDown env message s e ev) ≠ [] →
     fst (promptAreaOnKeyDown env message s e ev) = Ignored)
  ∧ (shiftKey ev = true → formHandleKeyDown message ev = []).
Proof.
  assert (fst (promptAreaOnKeyDown env message s e ev) ≠ Ignored →
          snd (promptAreaOnKeyDown env message s e ev) = []) as Hexcl.
  { unfold promptAreaOnKeyDown, fst, snd.
    unfold handleKeyDown, formHandleKeyDown, keyIs.
    destruct (bool_decide (key ev = str "Enter")) eqn:Henter; [|done].
    apply bool_decide_eq_true in Henter.
    rewrite (bool_decide_false (key ev = str "ArrowUp"))
      by (rewrite Henter; discriminate).
    rewrite (bool_decide_false (key ev = str "ArrowDown"))
      by (rewrite Henter; discriminate).
    rewrite !andb_false_r, Tauto.if_same.
    by case_bool_decide. }
  split_and!; [done| |].
  - intros Hform. destruct (fst _) eqn:Hline; [done|].
    exfalso. by apply Hform, Hexcl.
  - intros Hshift. unfold formHandleKeyDown. rewrite Hshift.
    by rewrite andb_false_r.
Qed.

Lemma move_never_submits_witness :
  snd (promptAreaOnKeyDown None (str "a" ++ nl :: str "b") 2 2
         (mkKeyboardEvent (str "ArrowUp") true false false)) = [].
Proof.
  apply (proj1 (move_never_submits None (str "a" ++ nl :: str "b") 2 2
                  (mkKeyboardEvent (str "ArrowUp") true false false))).
  vm_compute. discriminate.
Defined.

Lemma toasts_of_files (label title : jsstring) (names : list jsstring) :
  toastsOf (flat_map
              (fun name => [ConsoleLog label; ConsoleLogFile name;
                            Toast title name])
              names)
  = map (fun name => (title, name)) names
  ∧ ClearFileInput
    ∉ flat_map
        (fun name => [ConsoleLog label; ConsoleLogFile name; Toast title name])
        names.
Proof.
  induction names as [|name names [IH1 IH2]].
  - split; [done|apply not_elem_of_nil].
  - unfold toastsOf in *. cbn [flat_map app map]. rewrite IH1.
    split; [done|]. by rewrite !not_elem_of_cons.
Qed.

Lemma clear_only_with_input (effects : list Effect) (hasInput : bool) :
  ClearFileInput ∉ effects →
  (ClearFileInput ∈ effects ++ (if hasInput then [ClearFileInput] else []))
  ↔ hasInput = true.
Proof.
  intros Hnot. rewrite elem_of_app. destruct hasInput.
  - split; [done|]. intros _. right. by apply list_elem_of_singleton.
  - split; [|done]. intros [H|H]; [done|by inversion H].
Qed.

(** X16. Every file of the input gets one toast with its name, in the
    order of the files, and an input without files gets none; the file
    input is cleared exactly when the reference to it is set. *)
Theorem handleFileInput_toasts files hasInput :
  toastsOf (handleFileInput files hasInput)
  = map (fun name => (str "File Attached", name)) (default [] files)
  ∧ (ClearFileInput ∈ handleFileInput files hasInput ↔ hasInput = true).
Proof.
  assert (toastsOf (if hasInput then [ClearFileInput] else []) = [])
    as Hclear by by destruct hasInput.
  unfold handleFileInput.
  destruct files as [[|name names]|]; cbn [default length].
  - split; [by destruct hasInput|].
    apply (clear_only_with_input []), not_elem_of_nil.
  - replace (0 <? Z.of_nat (S (length names)))%Z with true
      by (symmetry; apply Z.ltb_lt; lia).
    destruct (toasts_of_files (str "File attached") (str "File Attached")
                (name :: names)) as [Htoasts Hnot].
    split; [|by apply clear_only_with_input].
    unfold toastsOf in *. by rewrite flat_map_app, Htoasts, Hclear, app_nil_r.
  - split; [by destruct hasInput|].
    apply (clear_only_with_input []), not_elem_of_nil.
Qed.

Lemma handleFileInput_toasts_witness :
  toastsOf (handleFileInput (Some [str "a.txt"; str "b.png"]) true)
  = [(str "File Attached", str "a.txt"); (str "File Attached", str "b.png")]
  ∧ ClearFileInput ∈ handleFileInput (Some [str "a.txt"; str "b.png"]) true.
Proof.
  destruct (handleFileInput_toasts (Some [str "a.txt"; str "b.png"]) true)
    as [Htoasts Hclear].
  split; [exact Htoasts|]. by apply Hclear.
Defined.

(** ** The height of the textarea *)

(** X17. Without a textarea nothing is set. With one, the height set is
    never above 180 pixels and never above the scroll height read; and when
    the second read of the scroll height gives what the first gave, the
    textarea scrolls exactly when the height set is below the scroll
    height, and hides the overflow exactly when it equals it. *)
Theorem textarea_height_bounded scrollHeight scrollHeight' :
  adjustTextareaHeight None = None
  ∧ ∃ style,
      adjustTextareaHeight (Some (scrollHeight, scrollHeight')) = Some style
      ∧ (heightPx style ≤ 180)%Z
      ∧ (heightPx style ≤ scrollHeight)%Z
      ∧ (scrollHeight' = scrollHeight →
         (overflowY style = overflowAuto ↔ (heightPx style < scrollHeight)%Z)
         ∧ (overflowY style = overflowHidden ↔ heightPx style = scrollHeight)).
Proof.
  split; [done|]. eexists. split; [reflexivity|]. simpl.
  split; [lia|]. split; [lia|]. intros ->.
  destruct (Z.gtb_spec scrollHeight 180); split; split; intros; (done || lia).
Qed.

Lemma textarea_height_bounded_witness :
  ∃ style,
    adjustTextareaHeight (Some (240, 240)%Z) = Some style
    ∧ (heightPx style ≤ 180)%Z
    ∧ (heightPx style ≤ 240)%Z
    ∧ (overflowY style = overflowAuto ↔ (heightPx style < 240)%Z)
    ∧ (overflowY style = overflowHidden ↔ heightPx style = 240%Z).
Proof.
  destruct (proj2 (textarea_height_bounded 240 240))
    as (style & Hrun & H1 & H2 & H3).
  exists style. split_and!; [done..| |]; by apply H3.
Defined.
